(** * resultgroup: a shallow embedding of [error.go] and [group.go]

    The package collects the results and the errors of concurrently running
    units of work.  The embedding keeps the shape of the Go code:

    - the [error] interface is a type class, [multiError] an instance of it;
    - a [Group] is a record with the fields of the Go struct (the mutex is
      not a field: every method body that runs under [g.mutex] is one atomic
      step of the machine below);
    - the cancellation contexts of package [context] live in a [World] that
      is threaded through every operation, together with the trace of the
      [cancel] calls that were made;
    - calling a nil [func()] and the explicit [panic] of the constructor are
      the [Panic] outcome, a goroutine that cannot proceed is [Blocked];
    - goroutines started by [Go] are a thread pool scheduled by a list of
      events, one event per atomic action. *)

From Stdlib Require Import ZArith Lia.
From stdpp Require Import base tactics option list list_numbers numbers strings.

Open Scope Z_scope.

(** ** Outcomes and the monad of the package's operations *)

Inductive Result (A : Type) : Type :=
  | Ok (a : A)
  | Panic (msg : string)
  | Blocked.
Arguments Ok {A} a.
Arguments Panic {A} msg.
Arguments Blocked {A}.

Definition is_panic {A} (r : Result A) : Prop :=
  match r with Panic _ => True | _ => False end.

(** ** Package [context]: the external cancellation mechanism

    Only what the package uses: [Background], [WithCancel], the returned
    [CancelFunc] and the observation [Done].  [Context] is an interface
    type, so nil is one of its values. *)

Definition ctx_id := nat.

Inductive Context : Type :=
  | NilContext
  | Background
  | Ctx (id : ctx_id).

Record ctx_node : Type := { ctx_parent : Context; ctx_cancelled : bool }.

(** A [CancelFunc] is the closure returned by [WithCancel]; it is
    represented by the context it cancels. *)
Definition CancelFunc := ctx_id.

Record World : Type := {
  ctxs : list ctx_node;        (* the contexts derived so far *)
  trace : list CancelFunc      (* every cancel call made, oldest first *)
}.

Definition empty_world : World := {| ctxs := []; trace := [] |}.

Definition M (A : Type) : Type := World -> Result (A * World).

#[global] Instance M_ret : MRet M := fun A a w => Ok (a, w).

#[global] Instance M_bind : MBind M := fun A B k m w =>
  match m w with
  | Ok (a, w') => k a w'
  | Panic msg => Panic msg
  | Blocked => Blocked
  end.

Definition panic {A} (msg : string) : M A := fun _ => Panic msg.

Definition blocked {A} : M A := fun _ => Blocked.

(** [context.WithCancel(parent)]: panics on a nil parent, otherwise derives
    a new context. *)
Definition WithCancel (parent : Context) : M (Context * CancelFunc) :=
  match parent with
  | NilContext => panic "cannot create context from nil parent"
  | _ => fun w =>
      let id := length (ctxs w) in
      Ok ((Ctx id, id),
          {| ctxs := ctxs w
                     ++ [{| ctx_parent := parent; ctx_cancelled := false |}];
             trace := trace w |})
  end.

Definition mark_cancelled (nd : ctx_node) : ctx_node :=
  {| ctx_parent := ctx_parent nd; ctx_cancelled := true |}.

(** Running a [CancelFunc]: the call is recorded and the context is marked.
    A second call marks an already marked context again (idempotent). *)
Definition cancelled_world (c : CancelFunc) (w : World) : World :=
  {| ctxs := alter mark_cancelled c (ctxs w); trace := trace w ++ [c] |}.

Definition run_cancel (c : CancelFunc) : M unit :=
  fun w => Ok (tt, cancelled_world c w).

(** Calling a value of type [func()]: a nil function value panics. *)
Definition call (f : option CancelFunc) : M unit :=
  match f with
  | Some c => run_cancel c
  | None => panic "invalid memory address or nil pointer dereference"
  end.

(** [ctx.Done()] is closed when the context or one of its ancestors was
    cancelled.  A parent is always older than its child, so the number of
    contexts bounds the walk. *)
Fixpoint ctx_done_walk (fuel : nat) (w : World) (c : Context) : bool :=
  match fuel, c with
  | _, NilContext => false
  | _, Background => false
  | O, Ctx _ => false
  | S n, Ctx id =>
      match ctxs w !! id with
      | Some nd => ctx_cancelled nd || ctx_done_walk n w (ctx_parent nd)
      | None => false
      end
  end.

Definition ctx_done (w : World) (c : Context) : bool :=
  ctx_done_walk (S (length (ctxs w))) w c.

(** ** [error.go] *)

(** The built-in interface [error]: one method, [Error() string]. *)
Class error (E : Type) := Error : E -> string.

(** [errors.New(text)]: an error whose message is [text]. *)
#[global] Instance errorString : error string := fun s => s.

Definition newline : string := String (Ascii.ascii_of_nat 10) EmptyString.

Section resultgroup.

Context {T E : Type} `{!error E}.

Record multiError : Type := { me_errs : list E }.

(** The loop of [multiError.Error]: [i] is the index of the range loop and
    [b] the byte slice built so far. *)
Fixpoint multiError_Error_loop (i : nat) (errs : list E) (b : string) : string :=
  match errs with
  | [] => b
  | err :: rest =>
      let b := if decide (0 < i)%nat then b +:+ newline else b in
      let b := b +:+ Error err in
      multiError_Error_loop (S i) rest b
  end.

Definition multiError_Error (me : multiError) : string :=
  multiError_Error_loop 0 (me_errs me) "".

Definition multiError_Unwrap (me : multiError) : list E := me_errs me.

(** [multiError] implements [error] (and [errorWithUnwrap]). *)
#[global] Instance multiError_error : error multiError := multiError_Error.

(** ** [group.go] *)

Record Group : Type := {
  errs : list E;
  wg : nat;                       (* the counter of the sync.WaitGroup *)
  cancel : option CancelFunc;     (* nil is None *)
  threshold : Z;
  results : list T
}.

(** The zero value [Group[T]{}]. *)
Definition Group_zero : Group :=
  {| errs := []; wg := 0; cancel := None; threshold := 0; results := [] |}.

Definition set_errs (g : Group) (es : list E) : Group :=
  {| errs := es; wg := wg g; cancel := cancel g;
     threshold := threshold g; results := results g |}.

Definition set_results (g : Group) (rs : list T) : Group :=
  {| errs := errs g; wg := wg g; cancel := cancel g;
     threshold := threshold g; results := rs |}.

Definition set_wg (g : Group) (n : nat) : Group :=
  {| errs := errs g; wg := n; cancel := cancel g;
     threshold := threshold g; results := results g |}.

Definition len {A} (l : list A) : Z := Z.of_nat (length l).

Definition WithErrorsThreshold (ctx : Context) (threshold : Z)
  : M (Group * Context) :=
  if decide (threshold < 1) then
    panic "threshold must be greater than or equal to 1"
  else
    '(ctx', cancel) ← WithCancel ctx;
    mret ({| errs := []; wg := 0; cancel := Some cancel;
            threshold := threshold; results := [] |}, ctx').

Definition handleErrors (g : Group) (err : E) : M Group :=
  let g :=
    if decide (threshold g = 0 \/ len (errs g) < threshold g)
    then set_errs g (errs g ++ [err])
    else g in
  if decide (len (errs g) = threshold g) then
    (if decide (cancel g <> None) then call (cancel g) else mret tt) ;;
    mret g
  else mret g.

Definition appendResults (g : Group) (res : list T) : Group :=
  set_results g (results g ++ res).

Definition processResult (g : Group) (res : list T) (err : option E) : M Group :=
  g ← (match err with
       | Some e => handleErrors g e
       | None => mret g
       end);
  mret (appendResults g res).

(** [g.wg.Wait()] lets the caller through only when the counter is zero. *)
Definition wg_Wait (g : Group) : M unit :=
  if decide (wg g = 0%nat) then mret tt else blocked.

Definition Wait (g : Group) : M (list T * option multiError) :=
  wg_Wait g ;;
  (if decide (cancel g <> None) then call (cancel g) else mret tt) ;;
  if decide (len (errs g) = 0) then mret (results g, None)
  else mret (results g, Some {| me_errs := errs g |}).

(** *** [Go] and the goroutines it starts *)

(** A unit of work, a value of type [func() ([]T, error)], as what calling
    it does.  The function value may be nil.  Otherwise the call returns
    its results and error, or first takes an action on the contexts of the
    program and goes on from there: the action may observe the contexts,
    derive new ones and call cancel functions; it may panic, and it may be
    unable to proceed in the world as it is (a unit that waits for
    [ctx.Done()], a unit that never returns). *)
#[warnings="-register-all"]
Inductive Unit : Type :=
  | NilFunc
  | Returns (res : list T) (err : option E)
  | Does (act : World -> Result (Unit * World)).

(** The control points of the goroutine body of [Go]. *)
Inductive Thread : Type :=
  | TRun (f : Unit)                    (* about to call [f()] *)
  | THandle (res : list T) (err : E)   (* [err != nil]: about to call [handleErrors] *)
  | TAppend (res : list T)             (* about to call [appendResults] *)
  | TExit                              (* about to run the deferred [g.wg.Done()] *)
  | TDone.                             (* returned *)

Definition is_done (t : Thread) : bool :=
  match t with TDone => true | _ => false end.

Definition wg_Add (g : Group) (n : nat) : Group := set_wg g (wg g + n)%nat.

Definition wg_Done (g : Group) : M Group :=
  match wg g with
  | O => panic "sync: negative WaitGroup counter"
  | S n => mret (set_wg g n)
  end.

(** One atomic action of a goroutine: an action of its unit, or one of its
    own actions on the shared group.  A panic of the unit is a panic of the
    program. *)
Definition thread_step (t : Thread) (g : Group) : M (Thread * Group) :=
  match t with
  | TRun f =>
      match f with
      | NilFunc => panic "invalid memory address or nil pointer dereference"
      | Returns res (Some e) => mret (THandle res e, g)
      | Returns res None => mret (TAppend res, g)
      | Does act => f' ← (act : M Unit); mret (TRun f', g)
      end
  | THandle res err => g' ← handleErrors g err; mret (TAppend res, g')
  | TAppend res => mret (TExit, appendResults g res)
  | TExit => g' ← wg_Done g; mret (TDone, g')
  | TDone => blocked
  end.

Record Config : Type := { grp : Group; pool : list Thread }.

Definition Go (c : Config) (f : Unit) : Config :=
  {| grp := wg_Add (grp c) 1; pool := pool c ++ [TRun f] |}.

(** What may happen next: the caller launches a unit, goroutine [i] takes
    its next action, or the rest of the program (the caller, a timer)
    acts on the contexts. *)
Inductive Event : Type :=
  | EvGo (f : Unit)
  | EvRun (i : nat)
  | EvWorld (act : World -> World).

Definition exec_event (c : Config) (ev : Event) : M Config :=
  match ev with
  | EvGo f => mret (Go c f)
  | EvRun i =>
      match pool c !! i with
      | Some t =>
          '(t', g') ← thread_step t (grp c);
          mret {| grp := g'; pool := <[i:=t']> (pool c) |}
      | None => blocked
      end
  | EvWorld act => fun w => Ok (c, act w)
  end.

Fixpoint exec (evs : list Event) (c : Config) : M Config :=
  match evs with
  | [] => mret c
  | ev :: evs => c' ← exec_event c ev; exec evs c'
  end.

(** The units launched by a run, in launch order. *)
Definition launched (evs : list Event) : list Unit :=
  omap (fun ev => match ev with EvGo f => Some f | _ => None end) evs.

(** A unit that reports [(res, err)] whatever the world looks like. *)
Definition report (res : list T) (err : option E) : Unit := Returns res err.

(** A sequence of error reports, each handled by [handleErrors]. *)
Fixpoint handle_all (g : Group) (es : list E) : M Group :=
  match es with
  | [] => mret g
  | e :: es => g' ← handleErrors g e; handle_all g' es
  end.

(** *** The vocabulary of the properties *)

(** What [handleErrors] leaves in the group: the error is recorded when the
    group is unbounded or still below its threshold. *)
Definition recorded g e : Group :=
  if decide (threshold g = 0 \/ len (errs g) < threshold g)
  then set_errs g (errs g ++ [e]) else g.

(** The cancel function is called at the crossing point only: among the
    error reports handled by a group made by [WithErrorsThreshold], on the
    one report whose append brings the length to the threshold, and on no
    other. *)
Definition trigger_only_at_crossing : Prop :=
  forall ctx th w0 g ctx' w1 es g2 w2 e g3 w3,
    WithErrorsThreshold ctx th w0 = Ok ((g, ctx'), w1) ->
    handle_all g es w1 = Ok (g2, w2) ->
    handleErrors g2 e w2 = Ok (g3, w3) ->
    (trace w3 <> trace w2
     <-> errs g3 = errs g2 ++ [e] /\ len (errs g3) = threshold g3).

(** The constructor panics for a threshold below 1 and for nothing else. *)
Definition panics_only_below_one : Prop :=
  forall ctx th w, is_panic (WithErrorsThreshold ctx th w) <-> th < 1.

(** A bounded group within its cap. *)
Definition capped (g : Group) : Prop :=
  0 < threshold g /\ len (errs g) <= threshold g.

(** The number of goroutines of a pool that have not returned yet. *)
Definition live (pool : list Thread) : nat :=
  sum_list_with (fun t => if is_done t then 0%nat else 1%nat) pool.

(** The WaitGroup counter counts the goroutines that have not returned. *)
Definition wg_ok (c : Config) : Prop := wg (grp c) = live (pool c).

(** A goroutine is quiet when it will not report an error. *)
Definition quiet (t : Thread) : Prop :=
  match t with
  | TRun (Returns _ None) => True
  | TRun _ => False
  | THandle _ _ => False
  | _ => True
  end.

(** The results a quiet goroutine has still to append. *)
Definition pending (t : Thread) : list T :=
  match t with
  | TRun (Returns r _) => r
  | TAppend r => r
  | _ => []
  end.

Definition owed (pool : list Thread) : list T :=
  concat (map pending pool).

(** Every result launched so far, [all], is in the group or still owed by a
    goroutine, and no error was recorded. *)
Definition all_quiet (all : list T) (c : Config) : Prop :=
  Forall quiet (pool c)
  /\ errs (grp c) = []
  /\ results (grp c) ++ owed (pool c) ≡ₚ all.

(** The three actions of a goroutine whose unit reports no error. *)
Definition run_quiet (i : nat) : list Event := [EvRun i; EvRun i; EvRun i].

(** Launch every unit, then let the goroutines run one after the other. *)
Definition sequential (rs : list (list T)) : list Event :=
  map (fun r => EvGo (report r None)) rs
  ++ flat_map run_quiet (seq 0 (length rs)).

(** *** Runs of units that may report errors *)

(** A goroutine is steady when its unit just returns its report. *)
Definition steady (t : Thread) : Prop :=
  match t with
  | TRun (Returns _ _) => True
  | TRun _ => False
  | _ => True
  end.

(** The block of results a goroutine has still to append, if any. *)
Definition owed_block (t : Thread) : option (list T) :=
  match t with
  | TRun (Returns res _) => Some res
  | THandle res _ => Some res
  | TAppend res => Some res
  | _ => None
  end.

(** The error a goroutine has still to hand to [handleErrors], if any. *)
Definition owed_err (t : Thread) : option E :=
  match t with
  | TRun (Returns _ err) => err
  | THandle _ err => Some err
  | _ => None
  end.

(** The launched units reported the blocks [bs] and the errors [es]: the
    results of the group are blocks already appended, every other block is
    still owed; no error is invented, and none is lost while the group is
    unbounded or below its threshold. *)
Definition joined (bs : list (list T)) (es : list E) (c : Config) : Prop :=
  Forall steady (pool c)
  /\ (exists done_bs,
        results (grp c) = concat done_bs
        /\ done_bs ++ omap owed_block (pool c) ≡ₚ bs)
  /\ errs (grp c) ++ omap owed_err (pool c) ⊆+ es
  /\ (threshold (grp c) = 0 \/ len (errs (grp c)) < threshold (grp c) ->
      errs (grp c) ++ omap owed_err (pool c) ≡ₚ es).

(** A group as the two constructions leave it, before any launch. *)
Definition fresh (g : Group) : Prop :=
  errs g = [] /\ results g = [] /\ wg g = 0%nat.

(** The launches of the units that report [reports]. *)
Definition reporting (reports : list (list T * option E)) : list Unit :=
  map (fun p => report p.1 p.2) reports.

(** The errors recorded in the aggregate that [Wait] returned. *)
Definition unwrapped (agg : option multiError) : list E :=
  match agg with
  | Some me => multiError_Unwrap me
  | None => []
  end.

(** The actions a goroutine has left once it has left its unit. *)
Definition actions_left (t : Thread) : nat :=
  match t with
  | TRun _ => 4
  | THandle _ _ => 3
  | TAppend _ => 2
  | TExit => 1
  | TDone => 0
  end.

(** The world after [n] calls of the cancel function [c]. *)
Definition cancel_calls (c : CancelFunc) (n : nat) (w : World) : World :=
  Nat.iter n (cancelled_world c) w.

(** *** What units and the rest of the program may be assumed to do *)

(** Every action the unit takes, in whatever world it takes it, has an
    outcome that [R] allows, up to the return of the unit.  The nil function
    value has no such guarantee. *)
Inductive stepping (R : World -> Result (Unit * World) -> Prop) : Unit -> Prop :=
  | stepping_returns res err : stepping R (Returns res err)
  | stepping_does act :
      (forall w, R w (act w)) ->
      (forall w f' w', act w = Ok (f', w') -> stepping R f') ->
      stepping R (Does act).

(** The unit is not nil and does not panic. *)
Definition never_panics : Unit -> Prop :=
  stepping (fun _ r => ~ is_panic r).

(** The unit is not nil, does not panic and never waits: each of its
    actions can be taken in every world. *)
Definition always_returns : Unit -> Prop :=
  stepping (fun _ r => exists f' w', r = Ok (f', w')).

(** The unit, moreover, only looks at the contexts. *)
Definition inert : Unit -> Prop :=
  stepping (fun w r => exists f', r = Ok (f', w)).

(** The calls of the cancel function [cf] made so far. *)
Definition calls_of (cf : CancelFunc) (w : World) : nat :=
  length (filter (fun c => c = cf) (trace w)).

(** An action that uses the contexts as package [context] allows, and does
    not call [cf]: no context is removed, none is cancelled back, and the
    calls of [cf] are those made before. *)
Definition contexts_kept (cf : CancelFunc) (w w' : World) : Prop :=
  calls_of cf w' = calls_of cf w
  /\ forall (id : ctx_id) nd,
       ctxs w !! id = Some nd ->
       exists nd', ctxs w' !! id = Some nd'
                   /\ (ctx_cancelled nd = true -> ctx_cancelled nd' = true).

Definition keeps_contexts (cf : CancelFunc) : Unit -> Prop :=
  stepping (fun w r => forall f' w', r = Ok (f', w') -> contexts_kept cf w w').

(** [P] holds of the unit a goroutine is still running, if it is. *)
Definition thread_unit (P : Unit -> Prop) (t : Thread) : Prop :=
  match t with
  | TRun f => P f
  | _ => True
  end.

(** [P] holds of the unit an event launches, [Q] of what an event of the
    rest of the program does to the contexts. *)
Definition event_within (P : Unit -> Prop) (Q : World -> World -> Prop)
    (ev : Event) : Prop :=
  match ev with
  | EvGo f => P f
  | EvRun _ => True
  | EvWorld act => forall w, Q w (act w)
  end.

(** The state of the group's own cancel function [cf], told from the
    group.  Its context is there, and done once the errors have reached the
    threshold; beyond the [k0] calls made before the run it was not called
    while the errors are below the threshold, and at least once from then
    on; and the units still running keep to the contexts' rules. *)
Definition cancelled_as_recorded (cf : CancelFunc) (k0 : nat)
    (c : Config) (w : World) : Prop :=
  cancel (grp c) = Some cf
  /\ capped (grp c)
  /\ Forall (thread_unit (keeps_contexts cf)) (pool c)
  /\ (exists nd, ctxs w !! cf = Some nd
                 /\ (len (errs (grp c)) = threshold (grp c) ->
                     ctx_cancelled nd = true))
  /\ exists n : nat,
       calls_of cf w = (k0 + n)%nat
       /\ (n = 0%nat <-> len (errs (grp c)) < threshold (grp c)).

(** *** The order in which the goroutines report *)

(** The error that event [ev] hands to [handleErrors] in state [c]. *)
Definition handled_by (c : Config) (ev : Event) : list E :=
  match ev with
  | EvRun i =>
      match pool c !! i with
      | Some (THandle _ err) => [err]
      | _ => []
      end
  | _ => []
  end.

(** The results that event [ev] hands to [appendResults] in state [c]. *)
Definition appended_by (c : Config) (ev : Event) : list T :=
  match ev with
  | EvRun i =>
      match pool c !! i with
      | Some (TAppend res) => res
      | _ => []
      end
  | _ => []
  end.

(** The errors handed to [handleErrors] during a run, in the order of the
    calls, and the results handed to [appendResults], likewise. *)
Fixpoint handled_in (evs : list Event) (c : Config) (w : World) : list E :=
  match evs with
  | [] => []
  | ev :: evs =>
      match exec_event c ev w with
      | Ok (c', w') => handled_by c ev ++ handled_in evs c' w'
      | _ => []
      end
  end.

Fixpoint appended_in (evs : list Event) (c : Config) (w : World) : list T :=
  match evs with
  | [] => []
  | ev :: evs =>
      match exec_event c ev w with
      | Ok (c', w') => appended_by c ev ++ appended_in evs c' w'
      | _ => []
      end
  end.

(** What a group keeps of the errors [es] handed to it one after the other:
    all of them without threshold, otherwise as many as fit under it. *)
Definition kept (g : Group) (es : list E) : list E :=
  if decide (threshold g = 0) then es
  else take (Z.to_nat (threshold g - len (errs g))) es.

End resultgroup.

Arguments multiError E : clear implicits.
Arguments Group T E : clear implicits.
Arguments Unit T E : clear implicits.
Arguments Thread T E : clear implicits.
Arguments Config T E : clear implicits.
Arguments Event T E : clear implicits.

(** ** The scenarios of the package's tests, run on the model *)

Module Scenarios.

Definition w0 : World := {| ctxs := []; trace := [] |}.

Definition err1 : string := "Error 1".
Definition err2 : string := "Error 2".
Definition err3 : string := "Error 3".

Definition start (g : Group nat string) : Config nat string :=
  {| grp := g; pool := [] |}.

(** [WithErrorsThreshold(ctx, n)], then the launches and goroutine actions
    [evs], then [Wait]. *)
Definition run_threshold (n : Z) (evs : list (Event nat string))
  : M (list nat * option (multiError string)) :=
  '(g, _) ← WithErrorsThreshold Background n;
  c ← exec evs (start g);
  Wait (grp c).

Definition run_plain (evs : list (Event nat string))
  : M (list nat * option (multiError string)) :=
  c ← exec evs (start Group_zero);
  Wait (grp c).

Definition four_units : list (Event nat string) :=
  [EvGo (report [] (Some err1)); EvGo (report [1%nat] None);
   EvGo (report [] (Some err2)); EvGo (report [2%nat] None)].

(** The four goroutines of [four_units] interleaved: the second error is
    handled before the first goroutine has appended its results. *)
Definition four_interleaved : list (Event nat string) :=
  [EvRun 0; EvRun 0; EvRun 2; EvRun 2; EvRun 1; EvRun 0; EvRun 0;
   EvRun 1; EvRun 1; EvRun 2; EvRun 3; EvRun 2; EvRun 3; EvRun 3].

(** The units of the cancellation test that watch [ctx.Done()]. *)
Definition watch_then (ctx : Context) (res : list nat) (err : option string)
  : Unit nat string :=
  Does (fun w =>
          Ok (if ctx_done w ctx then Returns [] (Some "context canceled")
              else Returns res err, w)).

Definition max_errors_units (ctx : Context) : list (Event nat string) :=
  [EvGo (report [] (Some err1)); EvGo (report [] (Some err2));
   EvGo (watch_then ctx [] (Some err3)); EvGo (watch_then ctx [1%nat] None)].

(** [context.WithTimeout(ctx, time.Second)] on the group's context, as far
    as contexts go: the caller derives a child of [Ctx 0]. *)
Definition derive_timeout (w : World) : World :=
  {| ctxs := ctxs w ++ [{| ctx_parent := Ctx 0%nat; ctx_cancelled := false |}];
     trace := trace w |}.

(** The fourth unit returns before the threshold is reached, the third
    one after the cancellation. *)
Definition max_errors_run : list (Event nat string) :=
  [EvRun 3; EvRun 0; EvRun 0; EvRun 1; EvRun 1; EvRun 2; EvRun 2; EvRun 2;
   EvRun 0; EvRun 0; EvRun 1; EvRun 1; EvRun 2; EvRun 2;
   EvRun 3; EvRun 3; EvRun 3].

(** The group and the world that
    [WithErrorsThreshold(context.Background(), 2)] returns. *)
Definition g_two : Group nat string :=
  {| errs := []; wg := 0; cancel := Some 0%nat; threshold := 2; results := [] |}.

Definition w_two : World :=
  {| ctxs := [{| ctx_parent := Background; ctx_cancelled := false |}];
     trace := [] |}.

(** The same group after [err1] and [err2] were handled. *)
Definition g_two_full : Group nat string := set_errs g_two [err1; err2].

(** The zero-value group [Group[int]{}]. *)
Definition g_plain : Group nat string := Group_zero.

Definition w_two_cancelled : World := cancelled_world 0%nat w_two.

(** The five units of the first test, [([i], nil)] for [i] in 0..4. *)
Definition five_results : list (list nat) :=
  [[0%nat]; [1%nat]; [2%nat]; [3%nat]; [4%nat]].

(** One of their interleavings: launches and goroutine actions mixed, the
    goroutines returning in the order 2, 0, 1, 4, 3. *)
Definition five_interleaved : list (Event nat string) :=
  [EvGo (report [0%nat] None); EvGo (report [1%nat] None); EvRun 1;
   EvGo (report [2%nat] None); EvRun 2; EvRun 0; EvRun 2; EvRun 2;
   EvGo (report [3%nat] None); EvRun 0; EvRun 1; EvRun 0; EvRun 1;
   EvGo (report [4%nat] None); EvRun 4; EvRun 3; EvRun 4; EvRun 4;
   EvRun 3; EvRun 3].

Definition five_final : Config nat string :=
  {| grp := set_results g_two [2%nat; 0%nat; 1%nat; 4%nat; 3%nat];
     pool := [TDone; TDone; TDone; TDone; TDone] |}.

(** The whole cancellation test: the caller derives the timeout context,
    launches the four units, which watch that context, and they run. *)
Definition max_errors_test : list (Event nat string) :=
  [EvWorld derive_timeout] ++ max_errors_units (Ctx 1%nat) ++ max_errors_run.

(** The reports of [four_units] and one whole run of them. *)
Definition four_reports : list (list nat * option string) :=
  [([], Some err1); ([1%nat], None); ([], Some err2); ([2%nat], None)].

Definition four_run : list (Event nat string) := four_units ++ four_interleaved.

(** The group [WithErrorsThreshold(context.Background(), 1)] returns. *)
Definition g_one : Group nat string :=
  {| errs := []; wg := 0; cancel := Some 0%nat; threshold := 1; results := [] |}.

(** Where [four_run] leaves the groups with threshold 2, 1 and none. *)
Definition four_done : list (Thread nat string) := [TDone; TDone; TDone; TDone].

Definition four_final_two : Config nat string :=
  {| grp := set_results (set_errs g_two [err1; err2]) [1%nat; 2%nat];
     pool := four_done |}.

Definition four_final_one : Config nat string :=
  {| grp := set_results (set_errs g_one [err1]) [1%nat; 2%nat];
     pool := four_done |}.

Definition four_final_plain : Config nat string :=
  {| grp := set_results (set_errs g_plain [err1; err2]) [1%nat; 2%nat];
     pool := four_done |}.

(** A state in the middle of a run: one goroutine about to hand its error
    to [handleErrors], one about to append its results. *)
Definition mid_run : Config nat string :=
  {| grp := set_wg g_two 2; pool := [THandle [] err1; TAppend [1%nat]] |}.

(** Two aggregates to wrap in a third. *)
Definition two_aggregates : list (multiError string) :=
  [{| me_errs := [err1; err2] |}; {| me_errs := [err3] |}].

End Scenarios.

(** * Properties *)

(** Unfolding the monad of the operations. *)
Ltac unfold_M :=
  unfold mbind, mret, M_bind, M_ret, panic, blocked, call, run_cancel in *.

Section string_facts.

Lemma append_assoc (a b c : string) : (a +:+ b) +:+ c = a +:+ (b +:+ c).
Proof.
  induction a as [|x a IH]; [reflexivity|].
  change (String x ((a +:+ b) +:+ c) = String x (a +:+ (b +:+ c))).
  by rewrite IH.
Qed.

Lemma append_empty_l (a : string) : "" +:+ a = a.
Proof. reflexivity. Qed.

End string_facts.

Section properties.

Context {T E : Type} `{!error E}.

Implicit Types (g : Group T E) (w : World) (e : E) (es : list E).

(** ** The aggregate error *)

Lemma multiError_Error_loop_pos (rest : list E) :
  forall (e : E) (i : nat) (b : string),
    (0 < i)%nat ->
    multiError_Error_loop i (e :: rest) b
    = b +:+ newline +:+ String.concat newline (map Error (e :: rest)).
Proof.
  induction rest as [|e' rest IH]; intros e i b Hi.
  - cbn [multiError_Error_loop map String.concat].
    destruct (decide (0 < i)%nat); [|lia]. apply append_assoc.
  - change (multiError_Error_loop i (e :: e' :: rest) b)
      with (multiError_Error_loop (S i) (e' :: rest)
              ((if decide (0 < i)%nat then b +:+ newline else b) +:+ Error e)).
    destruct (decide (0 < i)%nat); [|lia].
    rewrite IH by lia.
    change (String.concat newline (map Error (e :: e' :: rest)))
      with (Error e +:+ newline +:+ String.concat newline (map Error (e' :: rest))).
    by rewrite !append_assoc.
Qed.

(** C9. The message of a [multiError] is the messages of its components, in
    recorded order, joined by a single newline; nothing is added after the
    last component, and a single component gives its own message. *)
Theorem multiError_Error_join (me : multiError E) :
  multiError_Error me = String.concat newline (map Error (me_errs me))
  /\ (forall e : E, multiError_Error {| me_errs := [e] |} = Error e)
  /\ (forall (e : E) (rest : list E),
        multiError_Error {| me_errs := rest ++ [e] |}
        = String.concat newline (map Error rest)
          +:+ (if decide (rest = []) then "" else newline) +:+ Error e).
Proof.
  assert (Hjoin : forall l : list E,
    multiError_Error {| me_errs := l |} = String.concat newline (map Error l)).
  { intros [|e [|e' rest]]; try reflexivity.
    unfold multiError_Error. cbn [me_errs].
    change (multiError_Error_loop 0 (e :: e' :: rest) "")
      with (multiError_Error_loop 1 (e' :: rest) ("" +:+ Error e)).
    by rewrite multiError_Error_loop_pos by lia. }
  split; [destruct me; apply Hjoin|].
  split; [reflexivity|].
  intros e rest. rewrite Hjoin.
  induction rest as [|x [|y rest] IH]; try reflexivity.
  change (String.concat newline (map Error ((x :: y :: rest) ++ [e])))
    with (Error x +:+ newline
          +:+ String.concat newline (map Error ((y :: rest) ++ [e]))).
  rewrite IH.
  change (String.concat newline (map Error (x :: y :: rest)))
    with (Error x +:+ newline +:+ String.concat newline (map Error (y :: rest))).
  destruct (decide (y :: rest = [])); [done|].
  destruct (decide (x :: y :: rest = [])); [done|].
  by rewrite !append_assoc.
Qed.

(** ** Construction *)

(** [WithErrorsThreshold] unfolded: its own panic, the panic of
    [context.WithCancel], or the group built around the context that
    [WithCancel] allocates next. *)
Lemma WithErrorsThreshold_eq (ctx : Context) (th : Z) (w : World) :
  WithErrorsThreshold (T:=T) (E:=E) ctx th w
  = if decide (th < 1)
    then Panic "threshold must be greater than or equal to 1"
    else match ctx with
         | NilContext => Panic "cannot create context from nil parent"
         | _ =>
             Ok (({| errs := []; wg := 0; cancel := Some (length (ctxs w));
                     threshold := th; results := [] |}, Ctx (length (ctxs w))),
                 {| ctxs := ctxs w ++ [{| ctx_parent := ctx;
                                          ctx_cancelled := false |}];
                    trace := trace w |})
         end.
Proof.
  unfold WithErrorsThreshold. destruct decide; [done|]. by destruct ctx.
Qed.

Lemma WithErrorsThreshold_Ok ctx th w0 g ctx' w1 :
  WithErrorsThreshold ctx th w0 = Ok ((g, ctx'), w1) ->
  1 <= th /\ ctx <> NilContext
  /\ g = {| errs := []; wg := 0; cancel := Some (length (ctxs w0));
            threshold := th; results := [] |}
  /\ ctx' = Ctx (length (ctxs w0))
  /\ w1 = {| ctxs := ctxs w0 ++ [{| ctx_parent := ctx;
                                    ctx_cancelled := false |}];
             trace := trace w0 |}.
Proof.
  rewrite WithErrorsThreshold_eq. destruct (decide (th < 1)); [done|].
  destruct ctx; [done| |]; intros [= <- <- <-]; split_and?; (lia || done).
Qed.


(** ** The error-handling path *)

(** [handleErrors] never panics: the group is updated as [recorded] says and
    the cancel function, if there is one, runs exactly when the length of
    the recorded errors then equals the threshold. *)
Lemma handleErrors_eq g e w :
  handleErrors g e w
  = Ok (recorded g e,
        if decide (len (errs (recorded g e)) = threshold g)
        then match cancel g with
             | Some c => cancelled_world c w
             | None => w
             end
        else w).
Proof.
  unfold handleErrors. fold (recorded g e).
  assert (Hth : threshold (recorded g e) = threshold g)
    by (unfold recorded; by destruct decide).
  assert (Hc : cancel (recorded g e) = cancel g)
    by (unfold recorded; by destruct decide).
  rewrite Hth, Hc.
  destruct (decide (len (errs (recorded g e)) = threshold g)); [|done].
  destruct (cancel g) as [c|] eqn:Hcg.
  - destruct (decide (Some c <> None)) as [|Hn]; [done|by destruct Hn].
  - destruct (decide (None <> None)) as [Hn|]; [by destruct Hn|done].
Qed.

Lemma recorded_fields g e :
  threshold (recorded g e) = threshold g
  /\ cancel (recorded g e) = cancel g
  /\ wg (recorded g e) = wg g
  /\ results (recorded g e) = results g.
Proof. unfold recorded. by destruct decide. Qed.

Lemma len_app_one {A} (l : list A) (x : A) : len (l ++ [x]) = len l + 1.
Proof. unfold len. rewrite length_app. simpl. lia. Qed.

Lemma len_nonneg {A} (l : list A) : 0 <= len l.
Proof. unfold len. lia. Qed.

(** A bounded group below or at its cap: the next errors fill the cap and
    the rest is dropped. *)
Lemma handle_all_bounded es :
  forall g w,
    0 < threshold g -> len (errs g) <= threshold g ->
    exists g' w',
      handle_all g es w = Ok (g', w')
      /\ errs g' = errs g ++ take (Z.to_nat (threshold g - len (errs g))) es
      /\ threshold g' = threshold g
      /\ cancel g' = cancel g
      /\ wg g' = wg g
      /\ results g' = results g.
Proof.
  induction es as [|e es IH]; intros g w Hpos Hle.
  - exists g, w. rewrite take_nil, app_nil_r. done.
  - cbn [handle_all]. unfold mbind, M_bind. rewrite handleErrors_eq.
    destruct (recorded_fields g e) as (Hth & Hc & Hwg & Hres).
    set (w1 := if decide _ then _ else w). clearbody w1.
    assert (Hrec : errs (recorded g e)
                   = if decide (len (errs g) < threshold g)
                     then errs g ++ [e] else errs g).
    { unfold recorded. destruct (decide (threshold g = 0 \/ _)) as [[?|?]|Hn];
        destruct (decide (len (errs g) < threshold g)); try done; try lia.
      all: destruct Hn; by right. }
    destruct (IH (recorded g e) w1) as (g' & w' & Hrun & He & Hth' & Hc' & Hwg' & Hr').
    { by rewrite Hth. }
    { rewrite Hth, Hrec. destruct decide; [rewrite len_app_one|]; lia. }
    exists g', w'. split; [done|].
    rewrite Hth', Hc', Hwg', Hr', Hth, Hc, Hwg, Hres.
    split; [|done]. rewrite He, Hth, Hrec.
    destruct (decide (len (errs g) < threshold g)) as [Hlt|Hge].
    + rewrite len_app_one.
      replace (Z.to_nat (threshold g - len (errs g)))
        with (S (Z.to_nat (threshold g - (len (errs g) + 1)))) by lia.
      cbn [take]. by rewrite <- app_assoc.
    + replace (Z.to_nat (threshold g - len (errs g))) with O by lia.
      by rewrite !take_0.
Qed.

(** The cap is an invariant of every run of the goroutines. *)
Lemma recorded_capped g e :
  capped g -> capped (recorded g e) /\ threshold (recorded g e) = threshold g.
Proof.
  unfold capped, recorded. intros [Hpos Hle].
  destruct decide as [Ha|Hn]; cbn [errs threshold set_errs]; [|done].
  rewrite len_app_one. lia.
Qed.

Lemma exec_event_capped (c c' : Config T E) ev w w' :
  capped (grp c) ->
  exec_event c ev w = Ok (c', w') ->
  capped (grp c') /\ threshold (grp c') = threshold (grp c).
Proof.
  intros Hcap. destruct ev as [f|i|act]; cbn [exec_event].
  - by intros [= <- <-].
  - destruct (pool c !! i) as [t|]; [|done]. unfold mbind, M_bind.
    destruct t as [f|res e|res| |]; cbn [thread_step].
    + destruct f as [|res [e|]|act]; [done|by intros [= <- <-]..|].
      unfold mbind, M_bind. destruct (act w) as [[f' w1]| |]; [|done..].
      by intros [= <- <-].
    + unfold mbind, M_bind. rewrite handleErrors_eq. intros [= <- <-].
      by apply recorded_capped.
    + by intros [= <- <-].
    + unfold wg_Done, mbind, M_bind.
      destruct (wg (grp c)); [done|]. by intros [= <- <-].
    + done.
  - by intros [= <- <-].
Qed.

Lemma exec_capped evs :
  forall (c c' : Config T E) w w',
    capped (grp c) ->
    exec evs c w = Ok (c', w') ->
    capped (grp c') /\ threshold (grp c') = threshold (grp c).
Proof.
  induction evs as [|ev evs IH]; intros c c' w w' Hcap.
  - by intros [= <- <-].
  - cbn [exec]. unfold mbind, M_bind.
    destruct (exec_event c ev w) as [[c1 w1]| |] eqn:Hev; [|done..].
    destruct (exec_event_capped _ _ _ _ _ Hcap Hev) as [Hcap1 Hth1].
    intros Hrun. destruct (IH _ _ _ _ Hcap1 Hrun) as [Hcap2 Hth2].
    split; [done|]. by rewrite Hth2.
Qed.

(** C2. With a threshold above zero the recorded errors never outgrow it:
    after any sequence of error reports the length is at most the threshold,
    an error is appended only while the length is below the threshold, and
    what arrives later is dropped; the bound also holds after every run of
    goroutines on the group. *)
Theorem errors_capped g es w :
  0 < threshold g -> len (errs g) <= threshold g ->
  exists g' w',
    handle_all g es w = Ok (g', w')
    /\ threshold g' = threshold g
    /\ len (errs g') <= threshold g
    /\ errs g' = errs g ++ take (Z.to_nat (threshold g - len (errs g))) es
    /\ (forall e w1,
          exists g2 w2,
            handleErrors g' e w1 = Ok (g2, w2)
            /\ errs g2 = (if decide (len (errs g') < threshold g)
                          then errs g' ++ [e] else errs g'))
    /\ (forall evs pool0 w0 (c' : Config T E) w1,
          exec evs {| grp := g; pool := pool0 |} w0 = Ok (c', w1) ->
          len (errs (grp c')) <= threshold g).
Proof.
  intros Hpos Hle.
  destruct (handle_all_bounded es g w Hpos Hle)
    as (g' & w' & Hrun & He & Hth & _).
  exists g', w'. split; [done|]. split; [done|].
  assert (Hcap : len (errs g') <= threshold g).
  { rewrite He. unfold len in *. rewrite length_app, length_take. lia. }
  split; [done|]. split; [done|]. split.
  - intros e w1. rewrite handleErrors_eq. eexists _, _. split; [reflexivity|].
    unfold recorded. rewrite Hth.
    destruct (decide (threshold g = 0 \/ _)) as [[?|?]|Hn];
      destruct (decide (len (errs g') < threshold g)); try done; try lia.
  - intros evs pool0 w0 c' w1 Hexec.
    destruct (exec_capped evs {| grp := g; pool := pool0 |} c' w0 w1)
      as [[_ Hcap'] Hth']; [by split|done|].
    cbn [grp] in Hth'. by rewrite <- Hth'.
Qed.

(** C5. With threshold zero every reported error is recorded, in order, and
    the error-handling path leaves the world as it was: no cancel call is
    made, whatever the number of errors and whatever the cancel field. *)
Theorem unbounded_records_all g es w :
  threshold g = 0 ->
  handle_all g es w = Ok (set_errs g (errs g ++ es), w).
Proof.
  revert g w. induction es as [|e es IH]; intros g w Hth.
  - cbn. rewrite app_nil_r. by destruct g.
  - cbn [handle_all]. unfold mbind, M_bind. rewrite handleErrors_eq.
    assert (Hrec : recorded g e = set_errs g (errs g ++ [e])).
    { unfold recorded. destruct decide as [|Hn]; [done|]. destruct Hn; by left. }
    rewrite Hrec. cbn [errs set_errs].
    destruct (decide (len (errs g ++ [e]) = threshold g)) as [Heq|_].
    { rewrite len_app_one in Heq. pose proof (len_nonneg (errs g)). lia. }
    rewrite IH by done. cbn [errs set_errs]. by rewrite <- app_assoc.
Qed.

(** C7. A report that carries an error and results contributes both: the
    error goes through the threshold policy of [handleErrors] and all the
    results are appended, whatever happened to the error.  The goroutine
    does the same in its separate actions: after [handleErrors] it still
    holds all its results and appends them to whatever the group then is. *)
Theorem processResult_partial_success g (res : list T) e w :
  exists g' w',
    processResult g res (Some e) w = Ok (g', w')
    /\ results g' = results g ++ res
    /\ errs g' = (if decide (threshold g = 0 \/ len (errs g) < threshold g)
                  then errs g ++ [e] else errs g)
    /\ handleErrors g e w = Ok (set_results g' (results g), w')
    /\ thread_step (TRun (report res (Some e))) g w
       = Ok ((THandle res e, g), w)
    /\ thread_step (THandle res e) g w
       = Ok ((TAppend res, set_results g' (results g)), w')
    /\ (forall g2 w2,
          exists g3,
            thread_step (TAppend res) g2 w2 = Ok ((TExit, g3), w2)
            /\ results g3 = results g2 ++ res /\ errs g3 = errs g2).
Proof.
  unfold processResult, mbind, M_bind. cbn [thread_step].
  unfold mbind, M_bind. rewrite handleErrors_eq.
  eexists _, _. split; [reflexivity|].
  destruct (recorded_fields g e) as (Hth & Hc & Hwg & Hres).
  unfold appendResults. cbn [results errs set_results]. rewrite Hres.
  assert (Hback : set_results (recorded g e) (results g) = recorded g e).
  { rewrite <- Hres. by destruct (recorded g e). }
  change (set_results (set_results (recorded g e) (results g ++ res))
            (results g))
    with (set_results (recorded g e) (results g)).
  rewrite Hback. split_and?; try done.
  - unfold recorded. by destruct decide.
  - intros g2 w2. by eexists.
Qed.

(** *** When the error-handling path runs the cancel function *)

(** C1, as the code has it.  After the reports [es], a further error report
    calls the cancel function exactly when it is the [th]-th report or a
    later one: at the crossing point and on every dropped report after it,
    never before. *)
Theorem trigger_from_crossing_on ctx th w0 g ctx' w1 es g2 w2 e :
  WithErrorsThreshold ctx th w0 = Ok ((g, ctx'), w1) ->
  handle_all g es w1 = Ok (g2, w2) ->
  exists c g3 w3,
    cancel g = Some c /\ ctx' = Ctx c
    /\ handleErrors g2 e w2 = Ok (g3, w3)
    /\ trace w3 = (if decide (th <= len es + 1)
                   then trace w2 ++ [c] else trace w2)
    /\ (errs g3 = errs g2 ++ [e] <-> len es < th).
Proof.
  intros Hnew Hrun.
  apply WithErrorsThreshold_Ok in Hnew as (Hge & _ & -> & -> & ->).
  set (c := length (ctxs w0)) in *.
  match type of Hrun with handle_all ?g0 _ ?w1 = _ =>
    destruct (handle_all_bounded es g0 w1)
      as (g2' & w2' & Hrun' & He & Hth & Hc & _); [unfold len; cbn; lia..|]
  end.
  rewrite Hrun in Hrun'. injection Hrun' as <- <-.
  cbn [errs threshold cancel] in He, Hth, Hc.
  change (len (@nil E)) with 0 in He. rewrite Z.sub_0_r, app_nil_l in He.
  assert (Hlen : len (errs g2) = Z.min th (len es)).
  { rewrite He. unfold len. rewrite length_take. lia. }
  exists c. rewrite handleErrors_eq. eexists _, _.
  do 3 (split; [reflexivity|]).
  rewrite Hc, Hth. unfold recorded. rewrite Hth.
  destruct (decide (th = 0 \/ len (errs g2) < th)) as [Ha|Hn].
  - cbn [errs set_errs]. rewrite len_app_one.
    assert (len es < th) by lia.
    split; [|done].
    destruct (decide (len (errs g2) + 1 = th));
      destruct (decide (th <= len es + 1)); try done; lia.
  - assert (th <= len es) by lia.
    split.
    + destruct (decide (len (errs g2) = th));
        destruct (decide (th <= len es + 1)); try done; lia.
    + split; [|lia]. intros Habs. apply (f_equal length) in Habs.
      rewrite length_app in Habs. simpl in Habs. lia.
Qed.

(** ** [Wait] *)

(** [Wait] never panics: once the counter is zero it runs the cleanup, if
    the group has a cancel function, and returns. *)
Lemma Wait_eq g w :
  Wait g w
  = if decide (wg g = 0%nat)
    then Ok ((results g,
              if decide (len (errs g) = 0) then None
              else Some {| me_errs := errs g |}),
             match cancel g with
             | Some c => cancelled_world c w
             | None => w
             end)
    else Blocked.
Proof.
  unfold Wait, wg_Wait.
  destruct (decide (wg g = 0%nat)); [|done].
  destruct (cancel g) as [c|].
  - destruct (decide (Some c <> None)) as [|Hn]; [|by destruct Hn].
    unfold_M. by destruct decide.
  - destruct (decide (None <> None)) as [Hn|]; [by destruct Hn|].
    unfold_M. by destruct decide.
Qed.

(** C3. [Wait] returns the results and a nil aggregate exactly when no error
    was recorded; otherwise the aggregate unwraps to the recorded errors, in
    order, and so is never an empty aggregate. *)
Theorem Wait_aggregate g w :
  wg g = 0%nat ->
  exists agg w',
    Wait g w = Ok ((results g, agg), w')
    /\ (agg = None <-> errs g = [])
    /\ (forall me, agg = Some me ->
          multiError_Unwrap me = errs g /\ multiError_Unwrap me <> []).
Proof.
  intros Hwg. rewrite Wait_eq.
  destruct (decide (wg g = 0%nat)); [|done].
  eexists _, _. split; [reflexivity|].
  destruct (decide (len (errs g) = 0)) as [Hz|Hnz].
  - split; [|done]. split; [|done]. intros _.
    destruct (errs g); [done|]. unfold len in Hz. simpl in Hz. lia.
  - split.
    + split; [done|]. intros Hnil. rewrite Hnil in Hnz. done.
    + intros me [= <-]. cbn. split; [done|]. intros Hnil.
      by rewrite Hnil in Hnz.
Qed.

(** C6. When all units have reported, [Wait] calls the cancel function of
    the group whenever there is one, with or without recorded errors, and
    returns after that call. *)
Theorem Wait_cancels g c w :
  wg g = 0%nat -> cancel g = Some c ->
  exists r,
    Wait g w = Ok (r, cancelled_world c w)
    /\ Wait (set_errs g []) w = Ok ((results g, None), cancelled_world c w)
    /\ trace (cancelled_world c w) = trace w ++ [c]
    /\ (forall nd, ctxs w !! c = Some nd ->
          ctxs (cancelled_world c w) !! c = Some (mark_cancelled nd)
          /\ ctx_done (cancelled_world c w) (Ctx c) = true).
Proof.
  intros Hwg Hc. rewrite !Wait_eq. cbn [wg cancel set_errs errs results].
  rewrite Hc. destruct (decide (wg g = 0%nat)); [|done].
  change (len (@nil E)) with 0.
  destruct (decide (0 = 0)); [|done].
  eexists. split_and?; try done.
  intros nd Hnd. unfold ctx_done, cancelled_world. cbn [ctxs].
    unfold CancelFunc, ctx_id in *.
    rewrite list_lookup_alter_eq, Hnd. split; [done|].
    cbn [ctx_done_walk ctxs]. by rewrite list_lookup_alter_eq, Hnd.
Qed.

(** ** The goroutines *)

Lemma live_app (l1 l2 : list (Thread T E)) :
  live (l1 ++ l2) = (live l1 + live l2)%nat.
Proof. apply sum_list_with_app. Qed.

Lemma pool_split (pool : list (Thread T E)) i t :
  pool !! i = Some t ->
  exists l1 l2,
    pool = l1 ++ t :: l2
    /\ forall t', <[i:=t']> pool = l1 ++ t' :: l2.
Proof.
  intros Hi. exists (take i pool), (drop (S i) pool). split.
  - by rewrite take_drop_middle.
  - intros t'. apply insert_take_drop. by eapply lookup_lt_Some.
Qed.

(** One scheduled action keeps the counter right, and the cancel function
    and the threshold as they are. *)
Lemma exec_event_inv (c c' : Config T E) ev w w' :
  wg_ok c ->
  exec_event c ev w = Ok (c', w') ->
  wg_ok c'
  /\ cancel (grp c') = cancel (grp c)
  /\ threshold (grp c') = threshold (grp c).
Proof.
  intros Hwg. destruct ev as [f|i|act]; cbn [exec_event].
  - intros [= <- <-]. split; [|done].
    unfold wg_ok, Go in *. cbn [grp pool wg wg_Add set_wg].
    rewrite live_app, Hwg. cbn. lia.
  - destruct (pool c !! i) as [t|] eqn:Hi; [|done].
    destruct (pool_split _ _ _ Hi) as (l1 & l2 & Hpool & Hins).
    unfold wg_ok in *. rewrite Hpool, live_app in Hwg.
    destruct t as [f|res e|res| |]; unfold mbind, M_bind; cbn [thread_step].
    + destruct f as [|res [e|]|act]; [done| | |].
      1,2: intros [= <- <-]; cbn [grp pool]; rewrite Hins, live_app;
        (split; [apply Hwg|done]).
      unfold mbind, M_bind. destruct (act w) as [[f' w1]| |]; [|done..].
      intros [= <- <-]. cbn [grp pool]. rewrite Hins, live_app.
      split; [apply Hwg|done].
    + unfold mbind, M_bind. rewrite handleErrors_eq.
      destruct (recorded_fields (grp c) e) as (Hth & Hc & Hw & _).
      intros [= <- <-]. cbn [grp pool].
      rewrite Hins, live_app, Hw. split; [apply Hwg|done].
    + intros [= <- <-]. cbn [grp pool].
      rewrite Hins, live_app. split; [apply Hwg|done].
    + unfold wg_Done. cbn in Hwg.
      destruct (wg (grp c)) as [|n] eqn:Hn; [lia|].
      intros [= <- <-]. cbn [grp pool].
      rewrite Hins, live_app. cbn. split; [lia|done].
    + done.
  - by intros [= <- <-].
Qed.

Lemma exec_inv evs :
  forall (c c' : Config T E) w w',
    wg_ok c ->
    exec evs c w = Ok (c', w') ->
    wg_ok c'
    /\ cancel (grp c') = cancel (grp c)
    /\ threshold (grp c') = threshold (grp c).
Proof.
  induction evs as [|ev evs IH]; intros c c' w w' Hwg.
  - by intros [= <- <-].
  - cbn [exec]. unfold mbind, M_bind.
    destruct (exec_event c ev w) as [[c1 w1]| |] eqn:Hev; [|done..].
    destruct (exec_event_inv _ _ _ _ _ Hwg Hev) as (Hwg1 & Hc1 & Ht1).
    intros Hrun. destruct (IH _ _ _ _ Hwg1 Hrun) as (Hwg2 & Hc2 & Ht2).
    split; [done|]. by rewrite Hc2, Ht2.
Qed.

(** *** Units that keep to a rule *)

Lemma stepping_mono (R R' : World -> Result (Unit T E * World) -> Prop) f :
  (forall w r, R w r -> R' w r) -> stepping R f -> stepping R' f.
Proof.
  intros HR. induction 1 as [res err|act Hact _ IH]; constructor; auto.
Qed.

(** The units in the pool keep to the rule they were launched under. *)
Lemma stepping_pool (R : World -> Result (Unit T E * World) -> Prop)
    (Q : World -> World -> Prop) (c c' : Config T E) ev w w' :
  Forall (thread_unit (stepping R)) (pool c) ->
  event_within (stepping R) Q ev ->
  exec_event c ev w = Ok (c', w') ->
  Forall (thread_unit (stepping R)) (pool c').
Proof.
  intros Hpool Hev. destruct ev as [f|i|act]; cbn [exec_event].
  - intros [= <- <-]. cbn [Go pool]. apply Forall_app. split; [done|].
    by constructor.
  - destruct (pool c !! i) as [t|] eqn:Hi; [|done].
    assert (Ht : thread_unit (stepping R) t).
    { rewrite Forall_forall in Hpool. apply Hpool.
      by eapply list_elem_of_lookup_2. }
    unfold mbind, M_bind.
    destruct (thread_step t (grp c) w) as [[[t' g'] w1]| |] eqn:Hstep; [|done..].
    intros [= <- <-]. cbn [pool]. apply Forall_insert; [done|].
    destruct t as [f|res e|res| |]; cbn [thread_step] in Hstep.
    + destruct f as [|res [e|]|act]; [done| | |].
      1,2: by injection Hstep as <- _ _.
      unfold mbind, M_bind in Hstep.
      destruct (act w) as [[f' w2]| |] eqn:Hact; [|done..].
      injection Hstep as <- _ _. cbn in *. inversion Ht as [|? _ Hnext]; subst.
      by eapply Hnext.
    + unfold mbind, M_bind in Hstep. rewrite handleErrors_eq in Hstep.
      by injection Hstep as <- _ _.
    + by injection Hstep as <- _ _.
    + unfold wg_Done, mbind, M_bind in Hstep.
      destruct (wg (grp c)); [done|]. by injection Hstep as <- _ _.
    + done.
  - by intros [= <- <-].
Qed.

(** The group's own actions never panic: a run panics only when a unit is
    nil or panics. *)
Lemma exec_event_safe (Q : World -> World -> Prop) (c : Config T E) ev w :
  wg_ok c ->
  Forall (thread_unit never_panics) (pool c) ->
  ~ is_panic (exec_event c ev w).
Proof.
  intros Hwg Hpool. destruct ev as [f|i|act]; cbn [exec_event]; [intros []| |intros []].
  destruct (pool c !! i) as [t|] eqn:Hi; [|intros []].
  assert (Ht : thread_unit never_panics t).
  { rewrite Forall_forall in Hpool. apply Hpool.
    by eapply list_elem_of_lookup_2. }
  destruct (pool_split _ _ _ Hi) as (l1 & l2 & Hsplit & _).
  unfold wg_ok in Hwg. rewrite Hsplit, live_app in Hwg.
  unfold mbind, M_bind.
  destruct t as [f|res e|res| |]; cbn [thread_step].
  - destruct f as [|res [e|]|act]; [inversion Ht|intros []..|].
    unfold mbind, M_bind. inversion Ht as [|? Hact _]; subst.
    specialize (Hact w). by destruct (act w) as [[f' w1]| |].
  - unfold mbind, M_bind. rewrite handleErrors_eq. intros [].
  - intros [].
  - unfold wg_Done. cbn in Hwg. destruct (wg (grp c)); [lia|intros []].
  - intros [].
Qed.

Lemma exec_safe (Q : World -> World -> Prop) evs :
  forall (c : Config T E) w,
    wg_ok c ->
    Forall (thread_unit never_panics) (pool c) ->
    Forall (event_within never_panics Q) evs ->
    ~ is_panic (exec evs c w).
Proof.
  induction evs as [|ev evs IH]; intros c w Hwg Hpool Hevs; [intros []|].
  apply Forall_cons in Hevs as [Hev Hevs].
  cbn [exec]. unfold mbind, M_bind.
  pose proof (exec_event_safe Q c ev w Hwg Hpool) as Hsafe.
  destruct (exec_event c ev w) as [[c1 w1]| |] eqn:Hstep; [|done|intros []].
  apply IH; [|by eapply stepping_pool|done].
  by destruct (exec_event_inv _ _ _ _ _ Hwg Hstep).
Qed.

(** When the group has no cancel function and nothing but the group acts on
    the contexts, a run leaves the world as it was. *)
Lemma exec_event_inert (c c' : Config T E) ev w w' :
  cancel (grp c) = None ->
  Forall (thread_unit inert) (pool c) ->
  event_within inert (fun w w' => w' = w) ev ->
  exec_event c ev w = Ok (c', w') ->
  w' = w.
Proof.
  intros Hc Hpool Hev. destruct ev as [f|i|act]; cbn [exec_event].
  - by intros [= <- <-].
  - destruct (pool c !! i) as [t|] eqn:Hi; [|done].
    assert (Ht : thread_unit inert t).
    { rewrite Forall_forall in Hpool. apply Hpool.
      by eapply list_elem_of_lookup_2. }
    unfold mbind, M_bind.
    destruct t as [f|res e|res| |]; cbn [thread_step].
    + destruct f as [|res [e|]|act]; [done|by intros [= <- <-]..|].
      unfold mbind, M_bind. inversion Ht as [|? Hact _]; subst.
      destruct (Hact w) as [f' ->]. by intros [= <- <-].
    + unfold mbind, M_bind. rewrite handleErrors_eq, Hc.
      intros [= <- <-]. by destruct decide.
    + by intros [= <- <-].
    + unfold wg_Done, mbind, M_bind.
      destruct (wg (grp c)); [done|]. by intros [= <- <-].
    + done.
  - intros [= <- <-]. apply Hev.
Qed.

Lemma exec_inert evs :
  forall (c c' : Config T E) w w',
    wg_ok c ->
    cancel (grp c) = None ->
    Forall (thread_unit inert) (pool c) ->
    Forall (event_within inert (fun w w' => w' = w)) evs ->
    exec evs c w = Ok (c', w') ->
    w' = w.
Proof.
  induction evs as [|ev evs IH]; intros c c' w w' Hwg Hc Hpool Hevs.
  - by intros [= <- <-].
  - apply Forall_cons in Hevs as [Hev Hevs].
    cbn [exec]. unfold mbind, M_bind.
    destruct (exec_event c ev w) as [[c1 w1]| |] eqn:Hstep; [|done..].
    intros Hrun.
    rewrite (exec_event_inert _ _ _ _ _ Hc Hpool Hev Hstep) in *.
    destruct (exec_event_inv _ _ _ _ _ Hwg Hstep) as (Hwg1 & Hc1 & _).
    eapply IH; [done|by rewrite Hc1|by eapply stepping_pool|done|done].
Qed.

Lemma inert_never_panics (f : Unit T E) : inert f -> never_panics f.
Proof.
  apply stepping_mono. intros w r [f' ->]. intros [].
Qed.

Lemma live_zero_all_done (pool : list (Thread T E)) :
  live pool = 0%nat -> Forall (fun t => t = TDone) pool.
Proof.
  induction pool as [|t pool IH]; [constructor|].
  unfold live. cbn. fold (live pool). intros Hz.
  destruct t; cbn in Hz; try lia.
  constructor; [done|]. apply IH. lia.
Qed.

(** C10. Every call of the cancel function is guarded: on a group without
    one, [handleErrors] and [Wait] do not panic and leave the world as it
    was, so [Wait] just skips the cleanup.  On the zero-value group every
    run keeps the cancel function nil and [Wait] after it skips the cleanup;
    no run panics unless a unit is nil or panics; and when nothing but the
    group acts on the contexts, no run panics or touches the world. *)
Theorem nil_cancel_is_safe g :
  cancel g = None ->
  (forall e w, exists g', handleErrors g e w = Ok (g', w) /\ cancel g' = None)
  /\ (forall w, Wait g w = Blocked
               \/ exists agg, Wait g w = Ok ((results g, agg), w))
  /\ (forall e w, ~ is_panic (handleErrors (T:=T) Group_zero e w))
  /\ (forall w, exists r, Wait (T:=T) (E:=E) Group_zero w = Ok (r, w))
  /\ (forall evs w (c : Config T E) w',
        exec evs {| grp := Group_zero; pool := [] |} w = Ok (c, w') ->
        cancel (grp c) = None
        /\ (Wait (grp c) w' = Blocked
            \/ exists agg, Wait (grp c) w' = Ok ((results (grp c), agg), w')))
  /\ (forall (evs : list (Event T E)) w,
        Forall (event_within never_panics (fun _ _ => True)) evs ->
        ~ is_panic (exec evs {| grp := Group_zero; pool := [] |} w))
  /\ (forall (evs : list (Event T E)) w,
        Forall (event_within inert (fun w w' => w' = w)) evs ->
        exec evs {| grp := Group_zero; pool := [] |} w = Blocked
        \/ exists c : Config T E,
             exec evs {| grp := Group_zero; pool := [] |} w = Ok (c, w)
             /\ cancel (grp c) = None
             /\ ~ is_panic (Wait (grp c) w)).
Proof.
  intros Hc.
  assert (Hzero : wg_ok (T:=T) (E:=E) {| grp := Group_zero; pool := [] |})
    by done.
  split_and?.
  - intros e w. rewrite handleErrors_eq, Hc. eexists. split.
    + by destruct decide.
    + destruct (recorded_fields g e) as (_ & -> & _). done.
  - intros w. rewrite Wait_eq, Hc.
    destruct (decide (wg g = 0%nat)); [right|by left]. eauto.
  - intros e w. rewrite handleErrors_eq. intros [].
  - intros w. rewrite Wait_eq. by eexists.
  - intros evs w c w' Hrun.
    destruct (exec_inv evs _ _ _ _ Hzero Hrun) as (_ & Hcc & _).
    cbn [grp cancel Group_zero] in Hcc. split; [done|].
    rewrite Wait_eq, Hcc. destruct decide; [right|by left]. eauto.
  - intros evs w Hevs. by apply (exec_safe (fun _ _ => True)).
  - intros evs w Hevs.
    assert (Hsafe : ~ is_panic (exec evs {| grp := Group_zero; pool := [] |} w)).
    { apply (exec_safe (fun w w' => w' = w)); [done..|].
      eapply Forall_impl; [done|]. intros [f| |]; cbn; [|done..].
      apply inert_never_panics. }
    destruct (exec evs {| grp := Group_zero; pool := [] |} w)
      as [[c w']| |] eqn:Hrun; [|by destruct Hsafe|by left].
    rewrite (exec_inert evs _ _ _ _ Hzero eq_refl (Forall_nil_2 _) Hevs Hrun)
      in *.
    destruct (exec_inv evs _ _ _ _ Hzero Hrun) as (_ & Hcc & _).
    right. exists c. split; [done|]. split; [done|].
    rewrite Wait_eq. destruct decide; intros [].
Qed.

(** *** Units that report no error *)

Lemma owed_app (l1 l2 : list (Thread T E)) : owed (l1 ++ l2) = owed l1 ++ owed l2.
Proof. unfold owed. by rewrite map_app, concat_app. Qed.

Lemma owed_done (pool : list (Thread T E)) :
  Forall (fun t => t = TDone) pool -> owed pool = [].
Proof. induction 1 as [|t l -> _ IH]; [done|]. unfold owed in *. by cbn. Qed.

Lemma all_quiet_Go all (c : Config T E) (r : list T) :
  all_quiet all c -> all_quiet (all ++ r) (Go c (report r None)).
Proof.
  intros (Hq & He & Hp). unfold all_quiet, Go. cbn [grp pool].
  split_and?.
  - apply Forall_app. split; [done|]. by constructor.
  - done.
  - rewrite owed_app, app_assoc, Hp. unfold owed. cbn.
    by rewrite app_nil_r.
Qed.

Lemma all_quiet_run all (c c' : Config T E) i w w' :
  all_quiet all c ->
  exec_event c (EvRun i) w = Ok (c', w') ->
  all_quiet all c'.
Proof.
  intros (Hq & He & Hp). cbn [exec_event].
  destruct (pool c !! i) as [t|] eqn:Hi; [|done].
  destruct (pool_split _ _ _ Hi) as (l1 & l2 & Hpool & Hins).
  rewrite Hpool in Hq, Hp. apply Forall_app in Hq as [Hq1 Hq2].
  apply Forall_cons in Hq2 as [Hqt Hq2].
  rewrite owed_app in Hp. change (owed (t :: l2)) with (pending t ++ owed l2) in Hp.
  unfold mbind, M_bind.
  destruct t as [f|res e|res| |]; cbn [thread_step quiet pending] in *.
  - destruct f as [|res [e|]|act]; try done. intros [= <- <-].
    unfold all_quiet. cbn [grp pool fst] in *. rewrite Hins, owed_app.
    split_and?; [|done..].
    apply Forall_app. split; [done|]. by constructor.
  - destruct Hqt.
  - intros [= <- <-]. unfold all_quiet. cbn [grp pool] in *.
    rewrite Hins, owed_app. split_and?; [|done|].
    + apply Forall_app. split; [done|]. by constructor.
    + unfold appendResults. cbn [results set_results].
      change (owed (TExit :: l2)) with (owed l2).
      rewrite <- Hp, <- !app_assoc. f_equiv. apply Permutation_app_swap_app.
  - unfold wg_Done, mbind, M_bind.
    destruct (wg (grp c)) as [|n]; [done|]. intros [= <- <-].
    unfold all_quiet. cbn [grp pool] in *.
    rewrite Hins, owed_app. split_and?; [|done..].
    apply Forall_app. split; [done|]. by constructor.
  - done.
Qed.

Lemma exec_quiet evs :
  forall (rs : list (list T)) (c c' : Config T E) w w' all,
    all_quiet all c ->
    launched evs = map (fun r => report r None) rs ->
    exec evs c w = Ok (c', w') ->
    all_quiet (all ++ concat rs) c'.
Proof.
  induction evs as [|ev evs IH]; intros rs c c' w w' all Hq Hl Hrun.
  - destruct rs; [|done]. cbn in *. rewrite app_nil_r. by injection Hrun as <- <-.
  - cbn [exec] in Hrun. unfold mbind, M_bind in Hrun.
    destruct (exec_event c ev w) as [[c1 w1]| |] eqn:Hev; [|done..].
    destruct ev as [f|i|act].
    + destruct rs as [|r rs]; [done|]. cbn in Hl. injection Hl as -> Hl.
      cbn in Hev. injection Hev as <- <-.
      cbn [concat]. rewrite app_assoc.
      eapply IH; [|done..]. by apply all_quiet_Go.
    + eapply IH; [|done..]. by eapply all_quiet_run.
    + cbn in Hev. injection Hev as <- <-. by eapply IH.
Qed.

(** *** A schedule that lets every unit report *)

Lemma exec_app (evs1 evs2 : list (Event T E)) :
  forall c w, exec (evs1 ++ evs2) c w = (c' ← exec evs1 c; exec evs2 c') w.
Proof.
  induction evs1 as [|ev evs1 IH]; intros c w; [done|].
  cbn [app exec]. unfold mbind, M_bind.
  destruct (exec_event c ev w) as [[c1 w1]| |]; [|done..]. apply IH.
Qed.

Lemma exec_event_at (l1 l2 : list (Thread T E)) t g w :
  exec_event {| grp := g; pool := l1 ++ t :: l2 |} (EvRun (length l1)) w
  = ('(t', g') ← thread_step t g;
     mret {| grp := g'; pool := l1 ++ t' :: l2 |}) w.
Proof.
  cbn [exec_event pool grp]. rewrite list_lookup_middle by done.
  unfold mbind, M_bind.
  destruct (thread_step t g w) as [[[t' g'] w']| |]; [|done..].
  replace (length l1) with (length l1 + 0)%nat by lia.
  by rewrite insert_app_r.
Qed.

Lemma exec_cons_Ok (c c' : Config T E) ev evs w w' :
  exec_event c ev w = Ok (c', w') ->
  exec (ev :: evs) c w = exec evs c' w'.
Proof. intros Hev. cbn [exec]. unfold mbind, M_bind. by rewrite Hev. Qed.

Lemma run_quiet_returns (l1 l2 : list (Thread T E)) r g w n :
  wg g = S n ->
  exists g',
    exec (run_quiet (length l1))
      {| grp := g; pool := l1 ++ TRun (report r None) :: l2 |} w
    = Ok ({| grp := g'; pool := l1 ++ TDone :: l2 |}, w)
    /\ wg g' = n.
Proof.
  intros Hwg. unfold run_quiet.
  erewrite exec_cons_Ok; [|by rewrite exec_event_at].
  erewrite exec_cons_Ok; [|by rewrite exec_event_at].
  erewrite exec_cons_Ok.
  2:{ rewrite exec_event_at. cbn [thread_step]. unfold wg_Done.
      cbn [wg appendResults set_results]. by rewrite Hwg. }
  eexists. split; [reflexivity|done].
Qed.

Lemma run_all_return (rs : list (list T)) :
  forall (l1 : list (Thread T E)) g w,
    wg g = length rs ->
    exists c',
      exec (flat_map run_quiet (seq (length l1) (length rs)))
        {| grp := g; pool := l1 ++ map (fun r => TRun (report r None)) rs |} w
      = Ok (c', w)
      /\ wg (grp c') = 0%nat.
Proof.
  induction rs as [|r rs IH]; intros l1 g w Hwg.
  - eexists. split; [reflexivity|done].
  - cbn [length seq flat_map map]. rewrite exec_app.
    destruct (run_quiet_returns l1 (map (fun r => TRun (report r None)) rs)
                r g w (length rs) Hwg) as (g1 & Hrun & Hwg1).
    unfold mbind, M_bind. rewrite Hrun.
    destruct (IH (l1 ++ [TDone]) g1 w Hwg1) as (c' & Hrest & Hz).
    rewrite length_app, Nat.add_1_r, <- app_assoc in Hrest.
    exists c'. by split.
Qed.

Lemma launch_all (rs : list (list T)) :
  forall (c : Config T E) w,
    exists g',
      exec (map (fun r => EvGo (report r None)) rs) c w
      = Ok ({| grp := g';
               pool := pool c ++ map (fun r => TRun (report r None)) rs |}, w)
      /\ wg g' = (wg (grp c) + length rs)%nat.
Proof.
  induction rs as [|r rs IH]; intros c w.
  - exists (grp c). cbn. rewrite app_nil_r, Nat.add_0_r. by destruct c.
  - cbn [map exec exec_event]. unfold mbind, M_bind, mret, M_ret.
    destruct (IH (Go c (report r None)) w) as (g' & Hrun & Hwg).
    exists g'. unfold mbind, M_bind, mret, M_ret in Hrun. rewrite Hrun.
    cbn [Go pool grp wg wg_Add set_wg] in *. rewrite <- app_assoc.
    split; [done|]. cbn. lia.
Qed.

Lemma launched_sequential (rs : list (list T)) :
  launched (sequential (E:=E) rs) = map (fun r => report r None) rs.
Proof.
  unfold sequential, launched. rewrite omap_app.
  assert (Hruns : forall l : list nat,
    omap (fun ev : Event T E =>
            match ev with EvGo f => Some f | _ => None end)
         (flat_map run_quiet l) = []).
  { induction l as [|i l IHl]; [done|]. cbn. apply IHl. }
  rewrite Hruns, app_nil_r. induction rs as [|r rs IH]; [done|].
  cbn. by rewrite IH.
Qed.

(** C8. Units that all report [(results_i, nil)]: in whatever order the
    goroutines take their actions, [Wait] returns only when all of them
    have returned, and what it then returns is a permutation of the
    concatenation of the [results_i] and a nil aggregate; once all have
    returned it does return; and there is a run in which all of them return
    and [Wait] returns so. *)
Theorem Wait_collects_all_results (g0 : Group T E) (rs : list (list T)) :
  errs g0 = [] -> results g0 = [] -> wg g0 = 0%nat ->
  (forall evs w c w' res agg w'',
     launched evs = map (fun r => report r None) rs ->
     exec evs {| grp := g0; pool := [] |} w = Ok (c, w') ->
     Wait (grp c) w' = Ok ((res, agg), w'') ->
     res ≡ₚ concat rs /\ agg = None /\ Forall (fun t => t = TDone) (pool c))
  /\ (forall evs w c w',
        launched evs = map (fun r => report r None) rs ->
        exec evs {| grp := g0; pool := [] |} w = Ok (c, w') ->
        wg (grp c) = 0%nat ->
        exists res w'',
          Wait (grp c) w' = Ok ((res, None), w'') /\ res ≡ₚ concat rs)
  /\ (forall w, exists evs c res w'',
        launched evs = map (fun r => report r None) rs
        /\ exec evs {| grp := g0; pool := [] |} w = Ok (c, w)
        /\ wg (grp c) = 0%nat
        /\ Wait (grp c) w = Ok ((res, None), w'')
        /\ res ≡ₚ concat rs).
Proof.
  intros He Hr Hwg.
  assert (Hdone : forall evs w c w',
    launched evs = map (fun r => report r None) rs ->
    exec evs {| grp := g0; pool := [] |} w = Ok (c, w') ->
    wg (grp c) = 0%nat ->
    errs (grp c) = [] /\ results (grp c) ≡ₚ concat rs
    /\ Forall (fun t => t = TDone) (pool c)).
  { intros evs w c w' Hl Hrun Hz.
    assert (Hq0 : all_quiet [] {| grp := g0; pool := [] |}).
    { unfold all_quiet. cbn. rewrite He, Hr. by split_and?. }
    destruct (exec_quiet evs rs _ _ _ _ _ Hq0 Hl Hrun) as (_ & He' & Hp).
    destruct (exec_inv evs {| grp := g0; pool := [] |} c w w') as (Hwg2 & _);
      [by unfold wg_ok|done|].
    unfold wg_ok in Hwg2. rewrite Hz in Hwg2. symmetry in Hwg2.
    apply live_zero_all_done in Hwg2.
    rewrite (owed_done (pool c)), app_nil_r in Hp by done. done. }
  assert (Hret : forall evs w c w',
    launched evs = map (fun r => report r None) rs ->
    exec evs {| grp := g0; pool := [] |} w = Ok (c, w') ->
    wg (grp c) = 0%nat ->
    exists res w'',
      Wait (grp c) w' = Ok ((res, None), w'') /\ res ≡ₚ concat rs).
  { intros evs w c w' Hl Hrun Hz.
    destruct (Hdone evs w c w' Hl Hrun Hz) as (He' & Hp & _).
    rewrite Wait_eq, He'. destruct (decide (wg (grp c) = 0%nat)); [|done].
    change (len (@nil E)) with 0. destruct (decide (0 = 0)); [|done].
    eexists _, _. split; [reflexivity|done]. }
  split_and?.
  - intros evs w c w' res agg w'' Hl Hrun HW. rewrite Wait_eq in HW.
    destruct (decide (wg (grp c) = 0%nat)) as [Hz|]; [|done].
    destruct (Hdone evs w c w' Hl Hrun Hz) as (He' & Hp & Hall).
    rewrite He' in HW. change (len (@nil E)) with 0 in HW.
    destruct (decide (0 = 0)); [|done]. by injection HW as <- <- _.
  - done.
  - intros w.
    destruct (launch_all rs {| grp := g0; pool := [] |} w) as (g1 & Hgo & Hwg1).
    cbn [grp pool] in *. rewrite Hwg in Hwg1.
    destruct (run_all_return rs [] g1 w Hwg1) as (c & Hrun & Hz).
    assert (Hexec : exec (sequential rs) {| grp := g0; pool := [] |} w
                    = Ok (c, w)).
    { unfold sequential. rewrite exec_app. unfold mbind, M_bind.
      rewrite Hgo. apply Hrun. }
    destruct (Hret (sequential rs) w c w (launched_sequential rs) Hexec Hz)
      as (res & w'' & HW & Hp).
    exists (sequential rs), c, res, w''. split_and?; try done.
    apply launched_sequential.
Qed.

End properties.

(** * Further properties of the package *)

Section more_properties.

Context {T E : Type} `{!error E}.

Implicit Types (g : Group T E) (w : World) (e : E) (es : list E).
Implicit Types (c : Config T E) (t : Thread T E).

(** ** The accumulators only grow *)

Lemma exec_event_grows c c' ev w w' :
  exec_event c ev w = Ok (c', w') ->
  errs (grp c) `prefix_of` errs (grp c')
  /\ results (grp c) `prefix_of` results (grp c')
  /\ threshold (grp c') = threshold (grp c)
  /\ cancel (grp c') = cancel (grp c).
Proof.
  destruct ev as [f|i|act]; cbn [exec_event].
  - by intros [= <- <-].
  - destruct (pool c !! i) as [t|]; [|done]. unfold mbind, M_bind.
    destruct t as [f|res e|res| |]; cbn [thread_step].
    + destruct f as [|res [e|]|act]; [done|by intros [= <- <-]..|].
      unfold mbind, M_bind. destruct (act w) as [[f' w1]| |]; [|done..].
      by intros [= <- <-].
    + unfold mbind, M_bind. rewrite handleErrors_eq. intros [= <- <-].
      cbn [grp]. destruct (recorded_fields (grp c) e) as (-> & -> & _ & ->).
      split; [|done]. unfold recorded. destruct decide; [|done].
      cbn [errs set_errs]. by apply prefix_app_r.
    + intros [= <- <-]. cbn. split; [done|]. split; [|done].
      by apply prefix_app_r.
    + unfold wg_Done, mbind, M_bind.
      destruct (wg (grp c)); [done|]. by intros [= <- <-].
    + done.
  - by intros [= <- <-].
Qed.

(** X3. Whatever is launched and however the goroutines are scheduled, the
    recorded errors and the results are only appended to: what the group
    held before a run is a prefix of what it holds after it.  The threshold
    and the cancel function are never changed. *)
Theorem accumulators_only_grow (evs : list (Event T E)) :
  forall c c' w w',
    exec evs c w = Ok (c', w') ->
    errs (grp c) `prefix_of` errs (grp c')
    /\ results (grp c) `prefix_of` results (grp c')
    /\ threshold (grp c') = threshold (grp c)
    /\ cancel (grp c') = cancel (grp c).
Proof.
  induction evs as [|ev evs IH]; intros c c' w w'.
  - by intros [= <- <-].
  - cbn [exec]. unfold mbind, M_bind.
    destruct (exec_event c ev w) as [[c1 w1]| |] eqn:Hev; [|done..].
    intros Hrun.
    destruct (exec_event_grows _ _ _ _ _ Hev) as (He1 & Hr1 & Ht1 & Hc1).
    destruct (IH _ _ _ _ Hrun) as (He2 & Hr2 & Ht2 & Hc2).
    split_and?; [by etrans|by etrans|congruence..].
Qed.

(** ** The WaitGroup discipline *)

Lemma live_pos_not_done (pool0 : list (Thread T E)) :
  live pool0 = 0%nat <-> Forall (fun t => t = TDone) pool0.
Proof.
  split; [apply live_zero_all_done|].
  induction 1 as [|t l -> _ IH]; [done|]. unfold live in *. by cbn.
Qed.

Lemma live_pos_exists (pool0 : list (Thread T E)) :
  live pool0 <> 0%nat -> exists t, t ∈ pool0 /\ t <> TDone.
Proof.
  induction pool0 as [|t l IH]; [done|]. intros Hl.
  destruct (is_done t) eqn:Hd.
  - destruct IH as (t' & Hin & Hnd).
    { unfold live in *. cbn in Hl. by rewrite Hd in Hl. }
    exists t'. split; [by right|done].
  - exists t. split; [by left|]. by intros ->.
Qed.

(** X1. From a state in which the WaitGroup counter counts the goroutines
    that have not returned: a run panics only when a unit is nil or panics,
    never by an action of the group (the counter never goes below zero);
    and after every run that did not panic, whatever the units and the rest
    of the program did, the counter still counts the goroutines that have
    not returned, and [Wait] does not panic and blocks exactly while some
    launched goroutine has not returned. *)
Theorem Wait_blocks_until_all_returned (evs : list (Event T E)) c w :
  wg_ok c ->
  (Forall (thread_unit never_panics) (pool c) ->
   Forall (event_within never_panics (fun _ _ => True)) evs ->
   ~ is_panic (exec evs c w))
  /\ (forall c' w',
        exec evs c w = Ok (c', w') ->
        wg (grp c') = live (pool c')
        /\ ~ is_panic (Wait (grp c') w')
        /\ (Wait (grp c') w' = Blocked <-> exists t, t ∈ pool c' /\ t <> TDone)).
Proof.
  intros Hwg. split; [by apply exec_safe|]. intros c' w' Hrun.
  destruct (exec_inv evs _ _ _ _ Hwg Hrun) as (Hwg1 & _).
  split; [done|]. rewrite Wait_eq. unfold wg_ok in Hwg1.
  destruct (decide (wg (grp c') = 0%nat)) as [Hz|Hnz].
  - split; [intros []|]. split; [done|]. intros (t & Hin & Hnd).
    rewrite Hwg1 in Hz. apply live_pos_not_done in Hz.
    rewrite Forall_forall in Hz. by apply Hz in Hin.
  - split; [intros []|]. split; [|done]. intros _.
    apply live_pos_exists. congruence.
Qed.

(** ** Progress *)

(** The next action of a goroutine that has left its unit. *)
Lemma own_step c i t w :
  wg_ok c -> pool c !! i = Some t -> (forall f, t <> TRun f) -> t <> TDone ->
  exists c' t' w',
    exec_event c (EvRun i) w = Ok (c', w')
    /\ wg_ok c'
    /\ pool c' = <[i:=t']> (pool c)
    /\ (forall f, t' <> TRun f)
    /\ (actions_left t' < actions_left t)%nat.
Proof.
  intros Hwg Hi Hrun Hnd.
  assert (Hstep : exists c' t' w',
    exec_event c (EvRun i) w = Ok (c', w')
    /\ pool c' = <[i:=t']> (pool c)
    /\ (forall f, t' <> TRun f)
    /\ (actions_left t' < actions_left t)%nat).
  { cbn [exec_event]. rewrite Hi. unfold mbind, M_bind.
    destruct t as [f|res e|res| |]; cbn [thread_step].
    - by destruct (Hrun f).
    - unfold mbind, M_bind. rewrite handleErrors_eq.
      eexists _, (TAppend res), _. split; [reflexivity|]. cbn. split_and?; (done || lia).
    - eexists _, TExit, _. split; [reflexivity|]. cbn. split_and?; (done || lia).
    - destruct (pool_split _ _ _ Hi) as (l1 & l2 & Hpool & _).
      unfold wg_ok in Hwg. rewrite Hpool, live_app in Hwg. cbn in Hwg.
      unfold wg_Done. destruct (wg (grp c)) as [|n]; [lia|].
      eexists _, TDone, _. split; [reflexivity|]. cbn. split_and?; (done || lia).
    - done. }
  destruct Hstep as (c' & t' & w' & Hev & Hp & Hnr & Hlt).
  exists c', t', w'. split_and?; try done.
  by destruct (exec_event_inv _ _ _ _ _ Hwg Hev).
Qed.

Lemma exec_runs_app (ks1 ks2 : list nat) c c1 c2 w w1 w2 :
  exec (map EvRun ks1) c w = Ok (c1, w1) ->
  exec (map EvRun ks2) c1 w1 = Ok (c2, w2) ->
  exec (map EvRun (ks1 ++ ks2)) c w = Ok (c2, w2).
Proof.
  intros H1 H2. rewrite map_app, exec_app. unfold mbind, M_bind. by rewrite H1.
Qed.

(** A goroutine that has left its unit runs to its return. *)
Lemma finish_own (n : nat) :
  forall c i t w,
    wg_ok c -> pool c !! i = Some t -> (forall f, t <> TRun f) ->
    (actions_left t <= n)%nat ->
    exists (ks : list nat) c' w',
      exec (map EvRun ks) c w = Ok (c', w')
      /\ wg_ok c'
      /\ pool c' = <[i:=TDone]> (pool c).
Proof.
  induction n as [|n IH]; intros c i t w Hwg Hi Hrun Hn;
    (destruct (decide (is_done t = true)) as [Hd|Hd];
     [destruct t; try done; exists [], c, w; split; [done|]; split; [done|];
      by rewrite list_insert_id|]).
  - destruct t; cbn in Hn, Hd; (done || lia).
  - assert (Hnd : t <> TDone) by (by intros ->).
    destruct (own_step c i t w Hwg Hi Hrun Hnd)
      as (c1 & t1 & w1 & Hev & Hwg1 & Hp & Hnr & Hlt).
    destruct (IH c1 i t1 w1 Hwg1) as (ks & c2 & w2 & Hex & Hwg2 & Hp2);
      [rewrite Hp; apply list_lookup_insert_eq; by eapply lookup_lt_Some
      |done|lia|].
    exists (i :: ks), c2, w2.
    split; [cbn [map exec]; unfold mbind, M_bind; by rewrite Hev|].
    split; [done|]. by rewrite Hp2, Hp, list_insert_insert_eq.
Qed.

(** A goroutine whose unit always returns runs to its return. *)
Lemma finish_unit (f : Unit T E) :
  always_returns f ->
  forall c i w,
    wg_ok c -> pool c !! i = Some (TRun f) ->
    exists (ks : list nat) c' w',
      exec (map EvRun ks) c w = Ok (c', w')
      /\ wg_ok c'
      /\ pool c' = <[i:=TDone]> (pool c).
Proof.
  induction 1 as [res err|act Hact _ IH]; intros c i w Hwg Hi.
  - assert (Hstep : exists c1 t1,
      exec_event c (EvRun i) w = Ok (c1, w)
      /\ pool c1 = <[i:=t1]> (pool c) /\ (forall f, t1 <> TRun f)).
    { cbn [exec_event]. rewrite Hi. unfold mbind, M_bind. cbn [thread_step].
      destruct err as [e|]; eexists _, _; (split; [reflexivity|]); by cbn. }
    destruct Hstep as (c1 & t1 & Hev & Hp & Hnr).
    destruct (exec_event_inv _ _ _ _ _ Hwg Hev) as (Hwg1 & _).
    destruct (finish_own (actions_left t1) c1 i t1 w Hwg1)
      as (ks & c2 & w2 & Hex & Hwg2 & Hp2);
      [rewrite Hp; apply list_lookup_insert_eq; by eapply lookup_lt_Some
      |done|done|].
    exists (i :: ks), c2, w2.
    split; [cbn [map exec]; unfold mbind, M_bind; by rewrite Hev|].
    split; [done|]. by rewrite Hp2, Hp, list_insert_insert_eq.
  - destruct (Hact w) as (f' & w1 & Hw).
    assert (Hev : exec_event c (EvRun i) w
                  = Ok ({| grp := grp c; pool := <[i:=TRun f']> (pool c) |}, w1)).
    { cbn [exec_event]. rewrite Hi. unfold mbind, M_bind. cbn [thread_step].
      unfold mbind, M_bind. by rewrite Hw. }
    destruct (exec_event_inv _ _ _ _ _ Hwg Hev) as (Hwg1 & _).
    destruct (IH w f' w1 Hw _ i w1 Hwg1) as (ks & c2 & w2 & Hex & Hwg2 & Hp2).
    { cbn [pool]. apply list_lookup_insert_eq. by eapply lookup_lt_Some. }
    exists (i :: ks), c2, w2.
    split; [cbn [map exec]; unfold mbind, M_bind; by rewrite Hev|].
    split; [done|]. cbn [pool] in Hp2. by rewrite Hp2, list_insert_insert_eq.
Qed.

Lemma live_insert_done (pool0 : list (Thread T E)) i t :
  pool0 !! i = Some t -> t <> TDone ->
  live pool0 = S (live (<[i:=TDone]> pool0)).
Proof.
  intros Hi Hnd. destruct (pool_split _ _ _ Hi) as (l1 & l2 & Hpool & Hins).
  rewrite Hins. rewrite Hpool at 1. rewrite !live_app.
  unfold live. cbn. destruct t; (done || lia).
Qed.

Lemma run_to_completion (n : nat) :
  forall c w,
    wg_ok c -> Forall (thread_unit always_returns) (pool c) ->
    (live (pool c) <= n)%nat ->
    exists (ks : list nat) c' w',
      exec (map EvRun ks) c w = Ok (c', w')
      /\ wg (grp c') = 0%nat.
Proof.
  induction n as [|n IH]; intros c w Hwg Hret Hn;
    (destruct (decide (live (pool c) = 0%nat)) as [Hz|Hnz];
     [exists [], c, w; split; [done|by rewrite Hwg]|]); [lia|].
  apply live_pos_exists in Hnz as (t & Hin & Hnd).
  apply list_elem_of_lookup in Hin as [i Hi].
  assert (Hfin : exists (ks : list nat) c1 w1,
    exec (map EvRun ks) c w = Ok (c1, w1)
    /\ wg_ok c1 /\ pool c1 = <[i:=TDone]> (pool c)).
  { destruct t as [f|res e|res| |] eqn:Ht.
    - apply (finish_unit f); [|done..].
      rewrite Forall_forall in Hret.
      apply (Hret (TRun f)). by eapply list_elem_of_lookup_2.
    - by apply (finish_own (actions_left t) c i t w); subst.
    - by apply (finish_own (actions_left t) c i t w); subst.
    - by apply (finish_own (actions_left t) c i t w); subst.
    - done. }
  destruct Hfin as (ks1 & c1 & w1 & Hex1 & Hwg1 & Hp1).
  destruct (IH c1 w1 Hwg1) as (ks2 & c2 & w2 & Hex2 & Hz2).
  { rewrite Hp1. by apply Forall_insert. }
  { rewrite Hp1. pose proof (live_insert_done _ _ _ Hi Hnd). lia. }
  exists (ks1 ++ ks2), c2, w2. split; [by eapply exec_runs_app|done].
Qed.

(** X2. The group never stops a goroutine.  A goroutine that has left its
    unit and not yet returned can always take its next action
    ([handleErrors], [appendResults], [wg.Done]).  And when every unit still
    running is one that always returns, the goroutines can be run, with no
    further launch and nothing else happening, to a state in which [Wait]
    returns. *)
Theorem Wait_can_always_return c w :
  wg_ok c ->
  (forall i t, pool c !! i = Some t -> (forall f, t <> TRun f) -> t <> TDone ->
     exists c' w', exec_event c (EvRun i) w = Ok (c', w'))
  /\ (Forall (thread_unit always_returns) (pool c) ->
      exists (ks : list nat) c' w' r w'',
        exec (map EvRun ks) c w = Ok (c', w')
        /\ Wait (grp c') w' = Ok (r, w'')).
Proof.
  intros Hwg. split.
  - intros i t Hi Hrun Hnd.
    destruct (own_step c i t w Hwg Hi Hrun Hnd) as (c' & t' & w' & Hev & _).
    by exists c', w'.
  - intros Hret.
    destruct (run_to_completion _ c w Hwg Hret (Nat.le_refl _))
      as (ks & c' & w' & Hrun & Hz).
    exists ks, c', w'. eexists _, _. split; [done|].
    rewrite Wait_eq. by destruct decide.
Qed.

(** ** What [Wait] returns when units report errors too *)

Lemma omap_middle {A B} (f : A -> option B) (l1 l2 : list A) (x : A) :
  omap f (l1 ++ x :: l2) = omap f l1 ++ option_list (f x) ++ omap f l2.
Proof. rewrite omap_app. cbn. by destruct (f x). Qed.

Lemma omap_snoc {A B} (f : A -> option B) (l : list A) (x : A) :
  omap f (l ++ [x]) = omap f l ++ option_list (f x).
Proof. by rewrite omap_middle, app_nil_r. Qed.

Lemma joined_Go bs es c (r : list T) (oe : option E) :
  joined bs es c ->
  joined (bs ++ [r]) (es ++ option_list oe) (Go c (report r oe)).
Proof.
  intros (Hs & (done_bs & Hres & Hbs) & Hsub & Hall).
  unfold joined, Go. cbn [grp pool wg_Add set_wg errs results threshold].
  rewrite !omap_snoc. cbn [owed_block owed_err report fst snd].
  split_and?.
  - apply Forall_app. split; [done|]. by constructor.
  - exists done_bs. split; [done|]. by rewrite app_assoc, Hbs.
  - rewrite app_assoc. by apply submseteq_app.
  - intros Hc. by rewrite app_assoc, (Hall Hc).
Qed.

Lemma joined_run bs es c c' i w w' :
  joined bs es c ->
  exec_event c (EvRun i) w = Ok (c', w') ->
  joined bs es c'.
Proof.
  intros (Hs & (done_bs & Hres & Hbs) & Hsub & Hall). cbn [exec_event].
  destruct (pool c !! i) as [t|] eqn:Hi; [|done].
  destruct (pool_split _ _ _ Hi) as (l1 & l2 & Hpool & Hins).
  rewrite Hpool in Hs, Hbs, Hsub, Hall.
  apply Forall_app in Hs as [Hs1 Hs2]. apply Forall_cons in Hs2 as [Hst Hs2].
  rewrite omap_middle in Hbs. rewrite omap_middle in Hsub.
  rewrite omap_middle in Hall.
  assert (Hsteady : forall t', steady t' -> Forall steady (l1 ++ t' :: l2)).
  { intros t' Ht'. apply Forall_app. split; [done|]. by constructor. }
  unfold mbind, M_bind.
  destruct t as [f|res e|res| |]; cbn [thread_step steady owed_block owed_err] in *.
  - destruct f as [|res [e|]|act]; try done; intros [= <- <-];
      unfold joined; cbn [grp pool fst snd] in *; rewrite Hins, !omap_middle;
      (split; [by apply Hsteady|]); (split; [by exists done_bs|done]).
  - unfold mbind, M_bind. rewrite handleErrors_eq. intros [= <- <-].
    destruct (recorded_fields (grp c) e) as (Hth & _ & _ & Hr).
    unfold joined. cbn [grp pool]. rewrite Hins, !omap_middle, Hth, Hr.
    cbn [owed_block owed_err option_list] in *.
    split; [by apply Hsteady|]. split; [by exists done_bs|].
    unfold recorded.
    destruct (decide (threshold (grp c) = 0 \/ _)) as [Hc|Hn];
      cbn [errs set_errs].
    + assert (Hmove : (errs (grp c) ++ [e]) ++ omap owed_err l1 ++ omap owed_err l2
                      ≡ₚ errs (grp c) ++ omap owed_err l1 ++ [e] ++ omap owed_err l2).
      { rewrite <- !app_assoc. f_equiv. apply Permutation_app_swap_app. }
      split; [by rewrite Hmove|]. intros _. rewrite Hmove. by apply Hall.
    + split; [|by intros Hc; destruct Hn].
      etrans; [|apply Hsub]. apply submseteq_skips_l, submseteq_skips_l.
      apply submseteq_inserts_l. done.
  - intros [= <- <-]. unfold joined. cbn [grp pool].
    rewrite Hins, !omap_middle.
    cbn [owed_block owed_err option_list appendResults set_results
         results errs threshold] in *.
    split; [by apply Hsteady|]. split; [|done].
    exists (done_bs ++ [res]). split.
    + rewrite concat_app, Hres. cbn. by rewrite app_nil_r.
    + rewrite <- Hbs, <- !app_assoc. f_equiv. apply Permutation_app_swap_app.
  - unfold wg_Done, mbind, M_bind.
    destruct (wg (grp c)) as [|n]; [done|]. intros [= <- <-].
    unfold joined. cbn [grp pool errs results threshold set_wg].
    rewrite Hins, !omap_middle. cbn [owed_block owed_err option_list] in *.
    split; [by apply Hsteady|]. split; [by exists done_bs|done].
  - done.
Qed.

Lemma exec_joined (evs : list (Event T E)) :
  forall (reports : list (list T * option E)) c c' w w' bs es,
    joined bs es c ->
    launched evs = reporting reports ->
    exec evs c w = Ok (c', w') ->
    joined (bs ++ map fst reports) (es ++ omap snd reports) c'.
Proof.
  induction evs as [|ev evs IH]; intros reports c c' w w' bs es Hj Hl Hrun.
  - destruct reports; [|done]. cbn in *. rewrite !app_nil_r.
    by injection Hrun as <- <-.
  - cbn [exec] in Hrun. unfold mbind, M_bind in Hrun.
    destruct (exec_event c ev w) as [[c1 w1]| |] eqn:Hev; [|done..].
    destruct ev as [f|i|act]; [| |cbn in Hev; injection Hev as <- <-; by eapply IH].
    + destruct reports as [|[r oe] reports]; [done|].
      cbn in Hl. injection Hl as -> Hl.
      cbn in Hev. injection Hev as <- <-.
      change (map fst ((r, oe) :: reports)) with ([r] ++ map fst reports).
      assert (Hes : omap snd ((r, oe) :: reports)
                    = option_list oe ++ omap snd reports)
        by (cbn; by destruct oe).
      rewrite Hes, !app_assoc.
      eapply IH; [|done..]. by apply joined_Go.
    + eapply IH; [|done..]. by eapply joined_run.
Qed.

Lemma omap_all_done {B} (f : Thread T E -> option B) (pool0 : list (Thread T E)) :
  f TDone = None -> Forall (fun t => t = TDone) pool0 -> omap f pool0 = [].
Proof.
  intros Hf. induction 1 as [|t l -> _ IH]; [done|].
  change (TDone :: l) with ([] ++ TDone :: l).
  rewrite omap_middle, Hf. apply IH.
Qed.

(** What the invariant gives once every goroutine has returned. *)
Lemma joined_at_return (reports : list (list T * option E))
    (evs : list (Event T E)) g0 c w w' :
  fresh g0 ->
  launched evs = reporting reports ->
  exec evs {| grp := g0; pool := [] |} w = Ok (c, w') ->
  wg (grp c) = 0%nat ->
  threshold (grp c) = threshold g0
  /\ (exists bs, results (grp c) = concat bs /\ bs ≡ₚ map fst reports)
  /\ errs (grp c) ⊆+ omap snd reports
  /\ (threshold g0 = 0 \/ len (errs (grp c)) < threshold g0 ->
      errs (grp c) ≡ₚ omap snd reports).
Proof.
  intros (He & Hr & Hwg) Hl Hrun Hz.
  assert (Hj0 : joined [] [] {| grp := g0; pool := [] |}).
  { unfold joined. cbn. rewrite He, Hr. split_and?; try done. by exists []. }
  destruct (exec_joined evs reports _ _ _ _ _ _ Hj0 Hl Hrun)
    as (_ & (bs & Hres & Hbs) & Hsub & Hall).
  destruct (exec_inv evs {| grp := g0; pool := [] |} c w w')
    as (Hwg2 & _ & Hth); [by unfold wg_ok|done|].
  cbn [grp] in Hth.
  unfold wg_ok in Hwg2. rewrite Hz in Hwg2. symmetry in Hwg2.
  apply live_zero_all_done in Hwg2.
  rewrite (omap_all_done owed_block) in Hbs by done.
  rewrite (omap_all_done owed_err) in Hsub, Hall by done.
  rewrite app_nil_r in Hbs, Hsub, Hall.
  cbn [app] in *. rewrite Hth in Hall. split_and?; try done.
  by exists bs.
Qed.

Lemma Wait_unwrapped g w :
  wg g = 0%nat ->
  exists agg w',
    Wait g w = Ok ((results g, agg), w')
    /\ unwrapped agg = errs g
    /\ (agg = None <-> errs g = []).
Proof.
  intros Hz. rewrite Wait_eq. destruct (decide (wg g = 0%nat)); [|done].
  eexists _, _. split; [reflexivity|].
  destruct (decide (len (errs g) = 0)) as [Hl|Hl].
  - assert (errs g = []) as -> by (destruct (errs g); [done|by cbn in Hl]).
    done.
  - split; [done|]. split; [done|]. intros Hnil. by rewrite Hnil in Hl.
Qed.

(** X4. Units that report fixed results, with or without an error: once all
    goroutines have returned, in whatever order they ran, the results that
    [Wait] returns are the units' result lists laid end to end in some
    order.  The results of one unit stay together and in their order, and
    no unit's results are lost because it, or another unit, reported an
    error. *)
Theorem Wait_returns_whole_blocks (reports : list (list T * option E))
    (evs : list (Event T E)) g0 c w w' :
  fresh g0 ->
  launched evs = reporting reports ->
  exec evs {| grp := g0; pool := [] |} w = Ok (c, w') ->
  wg (grp c) = 0%nat ->
  exists bs agg w'',
    Wait (grp c) w' = Ok ((concat bs, agg), w'')
    /\ bs ≡ₚ map fst reports.
Proof.
  intros Hf Hl Hrun Hz.
  destruct (joined_at_return reports evs g0 c w w' Hf Hl Hrun Hz)
    as (_ & (bs & Hres & Hbs) & _).
  destruct (Wait_unwrapped (grp c) w' Hz) as (agg & w'' & HW & _).
  exists bs, agg, w''. by rewrite <- Hres.
Qed.

(** X5. A group without threshold loses no error: once all goroutines have
    returned, the aggregate that [Wait] returns unwraps to all the errors
    the units reported (each as often as it was reported), and it is nil
    exactly when no unit reported an error. *)
Theorem unbounded_Wait_unwraps_all (reports : list (list T * option E))
    (evs : list (Event T E)) g0 c w w' :
  fresh g0 -> threshold g0 = 0 ->
  launched evs = reporting reports ->
  exec evs {| grp := g0; pool := [] |} w = Ok (c, w') ->
  wg (grp c) = 0%nat ->
  exists res agg w'',
    Wait (grp c) w' = Ok ((res, agg), w'')
    /\ unwrapped agg ≡ₚ omap snd reports
    /\ (agg = None <-> omap snd reports = []).
Proof.
  intros Hf Hth Hl Hrun Hz.
  destruct (joined_at_return reports evs g0 c w w' Hf Hl Hrun Hz)
    as (_ & _ & _ & Hall).
  destruct (Wait_unwrapped (grp c) w' Hz) as (agg & w'' & HW & Hu & Hnone).
  exists (results (grp c)), agg, w''. split; [done|].
  rewrite Hu, Hnone. specialize (Hall (or_introl Hth)). split; [done|].
  split.
  - intros Hnil. rewrite Hnil in Hall. by apply Permutation_nil_l in Hall.
  - intros Hnil. rewrite Hnil in Hall. by apply Permutation_nil_r in Hall.
Qed.

(** X6. A group with threshold [M >= 1], [K] reported errors: once all
    goroutines have returned, the aggregate unwraps to [min M K] errors, all
    of them among the reported ones (none invented, none twice unless
    reported twice); when [K <= M] every reported error is there; and the
    aggregate is nil exactly when no unit reported an error. *)
Theorem bounded_Wait_unwraps_min (reports : list (list T * option E))
    (evs : list (Event T E)) g0 c w w' :
  fresh g0 -> 0 < threshold g0 ->
  launched evs = reporting reports ->
  exec evs {| grp := g0; pool := [] |} w = Ok (c, w') ->
  wg (grp c) = 0%nat ->
  exists res agg w'',
    Wait (grp c) w' = Ok ((res, agg), w'')
    /\ unwrapped agg ⊆+ omap snd reports
    /\ len (unwrapped agg) = Z.min (threshold g0) (len (omap snd reports))
    /\ (len (omap snd reports) <= threshold g0 ->
        unwrapped agg ≡ₚ omap snd reports)
    /\ (agg = None <-> omap snd reports = []).
Proof.
  intros Hf Hth Hl Hrun Hz.
  destruct (joined_at_return reports evs g0 c w w' Hf Hl Hrun Hz)
    as (_ & _ & Hsub & Hall).
  destruct (exec_capped evs {| grp := g0; pool := [] |} c w w')
    as [[_ Hcap] Hthc]; [|done|].
  { destruct Hf as (He & _). split; [done|]. cbn [grp]. rewrite He.
    unfold len. cbn. lia. }
  cbn [grp] in Hthc. rewrite Hthc in Hcap.
  destruct (Wait_unwrapped (grp c) w' Hz) as (agg & w'' & HW & Hu & Hnone).
  exists (results (grp c)), agg, w''. split; [done|].
  rewrite Hu, Hnone.
  pose proof (submseteq_length _ _ Hsub) as Hlen.
  assert (Hfull : len (omap snd reports) <= threshold g0 ->
                  errs (grp c) ≡ₚ omap snd reports).
  { intros Hk. destruct (decide (len (errs (grp c)) < threshold g0)) as [Hlt|Hge].
    - apply Hall. by right.
    - apply submseteq_length_Permutation; [done|]. unfold len in *. lia. }
  split; [done|]. split; [|split; [done|]].
  - destruct (decide (len (errs (grp c)) < threshold g0)) as [Hlt|Hge].
    + pose proof (Permutation_length (Hall (or_intror Hlt))) as Hpl.
      unfold len in *. lia.
    + unfold len in *. lia.
  - split.
    + intros Hnil.
      destruct (decide (len (omap snd reports) <= threshold g0)) as [Hk|Hk].
      * specialize (Hfull Hk). rewrite Hnil in Hfull.
        by apply Permutation_nil_l in Hfull.
      * rewrite Hnil in Hall. unfold len in Hall at 1. cbn in Hall.
        specialize (Hall (or_intror Hth)). by apply Permutation_nil_l in Hall.
    + intros Hnil. rewrite Hnil in Hsub. by apply submseteq_nil_r in Hsub.
Qed.

(** ** Cancellation in a run *)

Lemma calls_of_cancelled (cf : CancelFunc) w :
  calls_of cf (cancelled_world cf w) = S (calls_of cf w).
Proof.
  unfold calls_of, cancelled_world. cbn [trace].
  rewrite filter_app, length_app. cbn. rewrite decide_True by done.
  cbn. lia.
Qed.

Lemma ctx_done_cancelled (cf : CancelFunc) w nd :
  ctxs w !! cf = Some nd -> ctx_cancelled nd = true ->
  ctx_done w (Ctx cf) = true.
Proof.
  intros Hnd Hc. unfold ctx_done. cbn [ctx_done_walk].
  unfold CancelFunc, ctx_id in *. by rewrite Hnd, Hc.
Qed.

Lemma exec_event_cancels cf k0 c c' ev w w' :
  cancelled_as_recorded cf k0 c w ->
  event_within (keeps_contexts cf) (contexts_kept cf) ev ->
  exec_event c ev w = Ok (c', w') ->
  cancelled_as_recorded cf k0 c' w'.
Proof.
  intros (Hc & Hcap & Hpool & (nd & Hnd & Hmark) & n & Hw & Hn) Hev Hstep.
  assert (Hpool' : Forall (thread_unit (keeps_contexts cf)) (pool c'))
    by (by eapply stepping_pool).
  unfold cancelled_as_recorded. destruct ev as [f|i|act]; cbn [exec_event] in Hstep.
  - injection Hstep as <- <-. split_and?; eauto.
  - destruct (pool c !! i) as [t|] eqn:Hi; [|done].
    assert (Ht : thread_unit (keeps_contexts cf) t).
    { rewrite Forall_forall in Hpool. apply Hpool.
      by eapply list_elem_of_lookup_2. }
    unfold mbind, M_bind in Hstep.
    destruct t as [f|res e|res| |]; cbn [thread_step] in Hstep.
    + destruct f as [|res [e|]|act]; [done| | |].
      1,2: injection Hstep as <- <-; split_and?; eauto.
      unfold mbind, M_bind in Hstep.
      destruct (act w) as [[f' w1]| |] eqn:Hact; [|done..].
      injection Hstep as <- <-. cbn [grp] in *.
      inversion Ht as [|? Hkept _]; subst.
      destruct (Hkept w _ _ Hact) as [Hcalls Hctx].
      destruct (Hctx _ _ Hnd) as (nd' & Hnd' & Hmono).
      split_and?; [done..| |].
      * exists nd'. split; [done|]. auto.
      * exists n. by rewrite Hcalls.
    + unfold mbind, M_bind in Hstep. rewrite handleErrors_eq, Hc in Hstep.
      injection Hstep as <- <-. cbn [grp] in *.
      destruct (recorded_fields (grp c) e) as (Hth & Hcc & _).
      destruct (recorded_capped (grp c) e Hcap) as [Hcap' _].
      rewrite Hcc, Hth. split; [done|]. split; [done|]. split; [done|].
      destruct Hcap as [Hpos Hle]. destruct Hcap' as [_ Hle']. rewrite Hth in Hle'.
      assert (Hgrow : len (errs (grp c)) <= len (errs (recorded (grp c) e))).
      { unfold recorded. destruct decide; cbn [errs set_errs]; [|done].
        rewrite len_app_one. lia. }
      destruct (decide (len (errs (recorded (grp c) e)) = threshold (grp c)))
        as [Heq|Hne].
      * split.
        -- exists (mark_cancelled nd). split; [|done].
           unfold cancelled_world. cbn [ctxs]. unfold CancelFunc, ctx_id in *.
           by rewrite list_lookup_alter_eq, Hnd.
        -- exists (S n). rewrite calls_of_cancelled, Hw. split; [lia|].
           split; [done|lia].
      * split; [exists nd; split; [done|]; lia|].
        exists n. split; [done|]. split; [lia|]. intros Hlt. apply Hn. lia.
    + injection Hstep as <- <-. split_and?; eauto.
    + unfold wg_Done, mbind, M_bind in Hstep.
      destruct (wg (grp c)); [done|]. injection Hstep as <- <-.
      split_and?; eauto.
    + done.
  - injection Hstep as <- <-. destruct (Hev w) as [Hcalls Hctx].
    destruct (Hctx _ _ Hnd) as (nd' & Hnd' & Hmono).
    split_and?; [done..| |].
    + exists nd'. split; [done|]. auto.
    + exists n. by rewrite Hcalls.
Qed.

Lemma exec_cancels cf k0 (evs : list (Event T E)) :
  forall c c' w w',
    cancelled_as_recorded cf k0 c w ->
    Forall (event_within (keeps_contexts cf) (contexts_kept cf)) evs ->
    exec evs c w = Ok (c', w') ->
    cancelled_as_recorded cf k0 c' w'.
Proof.
  induction evs as [|ev evs IH]; intros c c' w w' Hinv Hevs.
  - by intros [= <- <-].
  - apply Forall_cons in Hevs as [Hev Hevs].
    cbn [exec]. unfold mbind, M_bind.
    destruct (exec_event c ev w) as [[c1 w1']| |] eqn:Hstep; [|done..].
    apply IH; [|done]. by eapply exec_event_cancels.
Qed.

Lemma WithErrorsThreshold_cancelled_as_recorded ctx th w0 g ctx' w1 :
  WithErrorsThreshold ctx th w0 = Ok ((g, ctx'), w1) ->
  exists cf,
    ctx' = Ctx cf /\ threshold g = th
    /\ cancelled_as_recorded cf (calls_of cf w1) {| grp := g; pool := [] |} w1.
Proof.
  intros Hnew.
  apply WithErrorsThreshold_Ok in Hnew as (Hge & _ & -> & -> & ->).
  exists (length (ctxs w0)). split; [done|]. split; [done|].
  unfold cancelled_as_recorded, capped. cbn [grp pool cancel threshold errs ctxs].
  change (len (@nil E)) with 0.
  split; [done|]. split; [lia|]. split; [done|]. split.
  - eexists. split; [by rewrite lookup_app_r, Nat.sub_diag|]. lia.
  - exists 0%nat. split; [lia|]. split; [lia|done].
Qed.

(** X7. A group made by [WithErrorsThreshold], after any run and before
    [Wait], when the units and the rest of the program use contexts as
    package [context] allows (no context is removed or cancelled back) and
    do not call the group's own cancel function, which they cannot reach:
    that function was not called during the run while fewer than
    [threshold] errors are recorded, it was called at least once when
    [threshold] errors are recorded, no more errors than that are ever
    recorded, and once [threshold] errors are recorded the derived context
    is done. *)
Theorem threshold_run_cancels_iff_reached ctx th w0 g ctx' w1
    (evs : list (Event T E)) c w2 :
  WithErrorsThreshold ctx th w0 = Ok ((g, ctx'), w1) ->
  (forall cf, ctx' = Ctx cf ->
     Forall (event_within (keeps_contexts cf) (contexts_kept cf)) evs) ->
  exec evs {| grp := g; pool := [] |} w1 = Ok (c, w2) ->
  exists (cf : CancelFunc) (n : nat),
    ctx' = Ctx cf
    /\ cancel (grp c) = Some cf
    /\ calls_of cf w2 = (calls_of cf w1 + n)%nat
    /\ len (errs (grp c)) <= th
    /\ (n = 0%nat <-> len (errs (grp c)) < th)
    /\ (len (errs (grp c)) = th -> ctx_done w2 ctx' = true).
Proof.
  intros Hnew Hevs Hrun.
  destruct (WithErrorsThreshold_cancelled_as_recorded _ _ _ _ _ _ Hnew)
    as (cf & -> & Hth & Hinv).
  pose proof Hinv as (_ & Hcap0 & _).
  destruct (exec_capped evs _ _ _ _ Hcap0 Hrun) as [_ Hthc].
  cbn [grp] in Hthc. rewrite Hth in Hthc.
  destruct (exec_cancels cf _ evs _ _ _ _ Hinv (Hevs cf eq_refl) Hrun)
    as (Hc & [_ Hle] & _ & (nd & Hnd & Hmark) & n & Hw & Hn).
  rewrite Hthc in Hle, Hn, Hmark.
  exists cf, n. split_and?; try done.
  intros Heq. by eapply ctx_done_cancelled; eauto.
Qed.

(** X8. A group made by [WithErrorsThreshold], under the same conditions on
    the units and the rest of the program: when [Wait] returns, after any
    run, it has called the group's own cancel function once more and
    touched no other context, and the derived context is done, with or
    without errors. *)
Theorem threshold_Wait_releases_context ctx th w0 g ctx' w1
    (evs : list (Event T E)) c w2 r w3 :
  WithErrorsThreshold ctx th w0 = Ok ((g, ctx'), w1) ->
  (forall cf, ctx' = Ctx cf ->
     Forall (event_within (keeps_contexts cf) (contexts_kept cf)) evs) ->
  exec evs {| grp := g; pool := [] |} w1 = Ok (c, w2) ->
  Wait (grp c) w2 = Ok (r, w3) ->
  exists cf : CancelFunc,
    ctx' = Ctx cf
    /\ ctx_done w3 ctx' = true
    /\ trace w3 = trace w2 ++ [cf]
    /\ (calls_of cf w1 < calls_of cf w3)%nat
    /\ (forall id : ctx_id, id <> cf -> ctxs w3 !! id = ctxs w2 !! id).
Proof.
  intros Hnew Hevs Hrun HW.
  destruct (WithErrorsThreshold_cancelled_as_recorded _ _ _ _ _ _ Hnew)
    as (cf & -> & Hth & Hinv).
  destruct (exec_cancels cf _ evs _ _ _ _ Hinv (Hevs cf eq_refl) Hrun)
    as (Hc & _ & _ & (nd & Hnd & _) & n & Hw & _).
  rewrite Wait_eq, Hc in HW. destruct (decide (wg (grp c) = 0%nat)); [|done].
  injection HW as _ <-. exists cf. split; [done|]. split_and?.
  - apply (ctx_done_cancelled cf _ (mark_cancelled nd)); [|done].
    unfold cancelled_world. cbn [ctxs]. unfold CancelFunc, ctx_id in *.
    by rewrite list_lookup_alter_eq, Hnd.
  - done.
  - rewrite calls_of_cancelled, Hw. lia.
  - intros id Hid. unfold cancelled_world. cbn [ctxs].
    unfold CancelFunc, ctx_id in *. by rewrite list_lookup_alter_ne.
Qed.

(** ** Aggregates of aggregates *)

Lemma multiError_Error_concat (l : list E) :
  multiError_Error {| me_errs := l |} = String.concat newline (map Error l).
Proof.
  destruct l as [|e [|e' rest]]; try reflexivity.
  unfold multiError_Error. cbn [me_errs].
  change (multiError_Error_loop 0 (e :: e' :: rest) "")
    with (multiError_Error_loop 1 (e' :: rest) ("" +:+ Error e)).
  by rewrite multiError_Error_loop_pos by lia.
Qed.

Lemma concat_app_nonempty (sep : string) (l1 l2 : list string) :
  l1 <> [] -> l2 <> [] ->
  String.concat sep (l1 ++ l2)
  = String.concat sep l1 +:+ sep +:+ String.concat sep l2.
Proof.
  intros H1 H2. induction l1 as [|x [|y l1] IH]; [done| |].
  - destruct l2; done.
  - change (String.concat sep ((x :: y :: l1) ++ l2))
      with (x +:+ sep +:+ String.concat sep ((y :: l1) ++ l2)).
    rewrite IH by done.
    change (String.concat sep (x :: y :: l1))
      with (x +:+ sep +:+ String.concat sep (y :: l1)).
    by rewrite !append_assoc.
Qed.

(** ** The order of the reports *)

Lemma recorded_kept g e : errs (recorded g e) = errs g ++ kept g [e].
Proof.
  unfold recorded, kept.
  destruct (decide (threshold g = 0)) as [Hz|Hnz].
  - destruct decide as [|Hn]; [done|]. destruct Hn. by left.
  - destruct (decide (threshold g = 0 \/ _)) as [[?|Hlt]|Hn]; [done| |].
    + cbn [errs set_errs].
      replace (Z.to_nat (threshold g - len (errs g)))
        with (S (Z.to_nat (threshold g - len (errs g) - 1))) by lia.
      cbn [take]. by rewrite take_nil.
    + replace (Z.to_nat (threshold g - len (errs g))) with O by lia.
      by rewrite app_nil_r.
Qed.

Lemma kept_cons g e es : kept g (e :: es) = kept g [e] ++ kept (recorded g e) es.
Proof.
  destruct (recorded_fields g e) as (Hth & _).
  pose proof (recorded_kept g e) as Hrec.
  unfold kept in *. rewrite Hth.
  destruct (decide (threshold g = 0)) as [Hz|Hnz]; [done|].
  rewrite Hrec.
  destruct (decide (len (errs g) < threshold g)) as [Hlt|Hge].
  - replace (Z.to_nat (threshold g - len (errs g)))
      with (S (Z.to_nat (threshold g - len (errs g) - 1))) by lia.
    cbn [take app]. rewrite take_nil, len_app_one. cbn [app].
    do 2 f_equal. lia.
  - replace (Z.to_nat (threshold g - len (errs g))) with O by lia.
    cbn [take app]. rewrite app_nil_r.
    replace (Z.to_nat (threshold g - len (errs g))) with O by lia.
    by rewrite take_0.
Qed.

Lemma kept_nil g : kept g [] = [].
Proof. unfold kept. destruct decide; [done|]. by rewrite take_nil. Qed.

Lemma exec_event_order c c' ev w w' :
  exec_event c ev w = Ok (c', w') ->
  results (grp c') = results (grp c) ++ appended_by c ev
  /\ errs (grp c') = errs (grp c) ++ kept (grp c) (handled_by c ev)
  /\ forall es, kept (grp c) (handled_by c ev ++ es)
                = kept (grp c) (handled_by c ev) ++ kept (grp c') es.
Proof.
  destruct ev as [f|i|act]; cbn [exec_event handled_by appended_by].
  - intros [= <- <-]. cbn [Go grp]. rewrite kept_nil, !app_nil_r.
    by split_and?.
  - destruct (pool c !! i) as [t|]; [|done]. unfold mbind, M_bind.
    destruct t as [f|res e|res| |]; cbn [thread_step].
    + destruct f as [|res [e|]|act]; [done| | |].
      1,2: intros [= <- <-]; cbn [grp]; by rewrite kept_nil, !app_nil_r.
      unfold mbind, M_bind. destruct (act w) as [[f' w1]| |]; [|done..].
      intros [= <- <-]. cbn [grp]. by rewrite kept_nil, !app_nil_r.
    + unfold mbind, M_bind. rewrite handleErrors_eq. intros [= <- <-].
      cbn [grp]. destruct (recorded_fields (grp c) e) as (_ & _ & _ & ->).
      rewrite app_nil_r. split; [done|]. split; [apply recorded_kept|].
      intros es. apply kept_cons.
    + intros [= <- <-]. cbn [grp appendResults set_results results errs].
      rewrite kept_nil, app_nil_r. split_and?; try done.
    + unfold wg_Done, mbind, M_bind.
      destruct (wg (grp c)); [done|]. intros [= <- <-]. cbn [grp].
      rewrite kept_nil, !app_nil_r. split_and?; try done.
    + done.
  - intros [= <- <-]. by rewrite kept_nil, !app_nil_r.
Qed.

(** X10. The accumulators follow the order of the reports.  After a run,
    the results are the old results followed by the lists handed to
    [appendResults], in the order of those calls; the recorded errors are
    the old ones followed by the errors handed to [handleErrors], in the
    order of those calls, all of them without threshold and otherwise only
    the first that fit under it. *)
Theorem accumulators_follow_report_order (evs : list (Event T E)) :
  forall c c' w w',
    exec evs c w = Ok (c', w') ->
    results (grp c') = results (grp c) ++ appended_in evs c w
    /\ errs (grp c') = errs (grp c) ++ kept (grp c) (handled_in evs c w).
Proof.
  induction evs as [|ev evs IH]; intros c c' w w'.
  - intros [= <- <-]. cbn. by rewrite kept_nil, !app_nil_r.
  - cbn [exec handled_in appended_in]. unfold mbind, M_bind.
    destruct (exec_event c ev w) as [[c1 w1]| |] eqn:Hev; [|done..].
    intros Hrun. destruct (exec_event_order _ _ _ _ _ Hev) as (Hr1 & He1 & Hk).
    destruct (IH _ _ _ _ Hrun) as (Hr2 & He2).
    split.
    + by rewrite Hr2, Hr1, app_assoc.
    + by rewrite He2, He1, Hk, app_assoc.
Qed.

End more_properties.

Section nested_aggregates.

Context {E : Type} `{!error E}.

(** X9. A [multiError] is itself an error, so aggregates can be wrapped in
    an aggregate.  When none of the wrapped aggregates is empty, the message
    of the outer one is the message of the flat aggregate of all their
    components: nesting adds no line and loses none. *)
Theorem nested_multiError_message (mes : list (multiError E)) :
  Forall (fun me => me_errs me <> []) mes ->
  multiError_Error {| me_errs := mes |}
  = multiError_Error {| me_errs := concat (map me_errs mes) |}.
Proof.
  intros Hne.
  rewrite (multiError_Error_concat (E:=multiError E)).
  rewrite (multiError_Error_concat (E:=E)).
  induction Hne as [|me rest Hme Hrest IH]; [done|].
  cbn [map concat]. destruct rest as [|me' rest].
  - cbn [map concat String.concat]. rewrite app_nil_r.
    destruct me as [l]. apply multiError_Error_concat.
  - change (String.concat newline (Error me :: map Error (me' :: rest)))
      with (Error me +:+ newline
            +:+ String.concat newline (map Error (me' :: rest))).
    rewrite IH, map_app, concat_app_nonempty.
    + f_equal. destruct me as [l]. apply multiError_Error_concat.
    + destruct me as [[|]]; done.
    + apply Forall_cons in Hrest as [Hme' _]. destruct me' as [[|]]; done.
Qed.

End nested_aggregates.

(** * The theorems at concrete groups *)

Section instances.

Import Scenarios.

(** The tests of the package. *)

Example testGroupNoErrors :
  run_threshold 3 (sequential five_results) w0
  = Ok (([0; 1; 2; 3; 4]%nat, None), cancelled_world 0%nat w_two).
Proof. vm_compute. reflexivity. Qed.

Example testGroupWithErrors :
  run_threshold 3 (four_units ++ four_interleaved) w0
  = Ok (([1; 2]%nat, Some {| me_errs := [err1; err2] |}),
        cancelled_world 0%nat w_two).
Proof. vm_compute. reflexivity. Qed.

Example testGroupNoErrorLimit :
  run_plain (four_units ++ four_interleaved) w0
  = Ok (([1; 2]%nat, Some {| me_errs := [err1; err2] |}), w0).
Proof. vm_compute. reflexivity. Qed.

Example testGroupMaxErrorsReached :
  run_threshold 2 max_errors_test w0
  = Ok (([1%nat], Some {| me_errs := [err1; err2] |}),
        cancel_calls 0%nat 3 (derive_timeout w_two)).
Proof. vm_compute. reflexivity. Qed.

Example multiError_message :
  multiError_Error {| me_errs := [err1; err2; err3] |}
  = "Error 1" +:+ newline +:+ "Error 2" +:+ newline +:+ "Error 3".
Proof. reflexivity. Qed.

Example WithErrorsThreshold_two :
  WithErrorsThreshold Background 2 w0 = Ok ((g_two, Ctx 0%nat), w_two).
Proof. reflexivity. Qed.

Example handle_two_errors :
  handle_all g_two [err1; err2] w_two = Ok (g_two_full, w_two_cancelled).
Proof. reflexivity. Qed.

(** C1 as stated fails: with threshold 2, the third error report is
    dropped and still calls the cancel function. *)
Lemma trigger_reinvoked_after_crossing :
  ~ trigger_only_at_crossing (T:=nat) (E:=string).
Proof.
  intros Hclaim.
  destruct (Hclaim Background 2 w0 g_two (Ctx 0%nat) w_two [err1; err2]
              g_two_full w_two_cancelled err3
              g_two_full (cancelled_world 0%nat w_two_cancelled)
              eq_refl eq_refl eq_refl) as [Hinvoked _].
  destruct Hinvoked as [Happended _]; [discriminate|discriminate].
Qed.

Lemma trigger_from_crossing_on_witness :
  exists c g3 w3,
    cancel g_two = Some c /\ Ctx 0%nat = Ctx c
    /\ handleErrors g_two_full err3 w_two_cancelled = Ok (g3, w3)
    /\ trace w3 = (if decide (2 <= len [err1; err2] + 1)
                   then trace w_two_cancelled ++ [c]
                   else trace w_two_cancelled)
    /\ (errs g3 = errs g_two_full ++ [err3] <-> len [err1; err2] < 2).
Proof.
  apply (trigger_from_crossing_on Background 2 w0 g_two (Ctx 0%nat) w_two
           [err1; err2] g_two_full w_two_cancelled err3);
    reflexivity.
Defined.

Lemma errors_capped_witness :
  exists g' w',
    handle_all g_two [err1; err2; err3] w_two = Ok (g', w')
    /\ threshold g' = threshold g_two
    /\ len (errs g') <= threshold g_two
    /\ errs g' = errs g_two
                 ++ take (Z.to_nat (threshold g_two - len (errs g_two)))
                      [err1; err2; err3]
    /\ (forall e w1,
          exists g2 w2,
            handleErrors g' e w1 = Ok (g2, w2)
            /\ errs g2 = (if decide (len (errs g') < threshold g_two)
                          then errs g' ++ [e] else errs g'))
    /\ (forall evs pool0 w0 (c' : Config nat string) w1,
          exec evs {| grp := g_two; pool := pool0 |} w0 = Ok (c', w1) ->
          len (errs (grp c')) <= threshold g_two).
Proof.
  apply (errors_capped g_two [err1; err2; err3] w_two); vm_compute; done.
Defined.

Lemma Wait_aggregate_witness :
  exists agg w',
    Wait g_two_full w_two_cancelled = Ok ((results g_two_full, agg), w')
    /\ (agg = None <-> errs g_two_full = [])
    /\ (forall me, agg = Some me ->
          multiError_Unwrap me = errs g_two_full /\ multiError_Unwrap me <> []).
Proof. apply (Wait_aggregate g_two_full w_two_cancelled). reflexivity. Defined.

(** C4 as stated fails: with a nil parent the constructor panics, inside
    [context.WithCancel], although the threshold is 1. *)
Lemma nil_parent_panics_at_threshold_one :
  ~ panics_only_below_one (T:=nat) (E:=string).
Proof.
  intros Hclaim. destruct (Hclaim NilContext 1 w0) as [Hpanics _].
  specialize (Hpanics I). lia.
Qed.


Lemma unbounded_records_all_witness :
  handle_all g_plain [err1; err2; err3] w0
  = Ok (set_errs g_plain (errs g_plain ++ [err1; err2; err3]), w0).
Proof.
  apply (unbounded_records_all g_plain [err1; err2; err3] w0). reflexivity.
Defined.

Lemma Wait_cancels_witness :
  exists r,
    Wait g_two w_two = Ok (r, cancelled_world 0%nat w_two)
    /\ Wait (set_errs g_two []) w_two
       = Ok ((results g_two, None), cancelled_world 0%nat w_two)
    /\ trace (cancelled_world 0%nat w_two) = trace w_two ++ [0%nat]
    /\ (forall nd, ctxs w_two !! 0%nat = Some nd ->
          ctxs (cancelled_world 0%nat w_two) !! 0%nat = Some (mark_cancelled nd)
          /\ ctx_done (cancelled_world 0%nat w_two) (Ctx 0%nat) = true).
Proof. apply (Wait_cancels g_two 0%nat w_two); reflexivity. Defined.

Lemma nil_cancel_is_safe_witness :
  (forall e w, exists g', handleErrors g_plain e w = Ok (g', w) /\ cancel g' = None)
  /\ (forall w, Wait g_plain w = Blocked
               \/ exists agg, Wait g_plain w = Ok ((results g_plain, agg), w))
  /\ (forall e w, ~ is_panic (handleErrors (T:=nat) (E:=string) Group_zero e w))
  /\ (forall w, exists r, Wait (T:=nat) (E:=string) Group_zero w = Ok (r, w))
  /\ (forall evs w (c : Config nat string) w',
        exec evs {| grp := Group_zero; pool := [] |} w = Ok (c, w') ->
        cancel (grp c) = None
        /\ (Wait (grp c) w' = Blocked
            \/ exists agg, Wait (grp c) w' = Ok ((results (grp c), agg), w')))
  /\ (forall (evs : list (Event nat string)) w,
        Forall (event_within never_panics (fun _ _ => True)) evs ->
        ~ is_panic (exec evs {| grp := Group_zero; pool := [] |} w))
  /\ (forall (evs : list (Event nat string)) w,
        Forall (event_within inert (fun w w' => w' = w)) evs ->
        exec evs {| grp := Group_zero; pool := [] |} w = Blocked
        \/ exists c : Config nat string,
             exec evs {| grp := Group_zero; pool := [] |} w = Ok (c, w)
             /\ cancel (grp c) = None
             /\ ~ is_panic (Wait (grp c) w)).
Proof. apply (nil_cancel_is_safe g_plain). reflexivity. Defined.

Example five_interleaved_run :
  exec five_interleaved {| grp := g_two; pool := [] |} w_two
  = Ok (five_final, w_two).
Proof. reflexivity. Qed.

Example five_interleaved_Wait :
  Wait (grp five_final) w_two
  = Ok ((results (grp five_final), None), w_two_cancelled).
Proof. reflexivity. Qed.

Lemma Wait_collects_all_results_witness :
  results (grp five_final) ≡ₚ concat five_results
  /\ (None : option (multiError string)) = None
  /\ Forall (fun t => t = TDone) (pool five_final).
Proof.
  apply (proj1 (Wait_collects_all_results g_two five_results
                  eq_refl eq_refl eq_refl)
           five_interleaved w_two five_final w_two
           (results (grp five_final)) None w_two_cancelled);
    reflexivity.
Defined.

(** The runs used below. *)

Example four_run_two :
  exec four_run (start g_two) w_two = Ok (four_final_two, w_two_cancelled).
Proof. vm_compute. reflexivity. Qed.

Example four_run_one :
  exec four_run (start g_one) w_two
  = Ok (four_final_one, cancel_calls 0%nat 2 w_two).
Proof. vm_compute. reflexivity. Qed.

Example four_run_plain :
  exec four_run (start g_plain) w0 = Ok (four_final_plain, w0).
Proof. vm_compute. reflexivity. Qed.

Lemma accumulators_only_grow_witness :
  errs (grp (start g_two)) `prefix_of` errs (grp four_final_two)
  /\ results (grp (start g_two)) `prefix_of` results (grp four_final_two)
  /\ threshold (grp four_final_two) = threshold (grp (start g_two))
  /\ cancel (grp four_final_two) = cancel (grp (start g_two)).
Proof.
  apply (accumulators_only_grow four_run (start g_two) four_final_two
           w_two w_two_cancelled).
  vm_compute. reflexivity.
Defined.

(*X1X2*)
Lemma Wait_returns_whole_blocks_witness :
  exists bs agg w'',
    Wait (grp four_final_one) (cancel_calls 0%nat 2 w_two)
    = Ok ((concat bs, agg), w'')
    /\ bs ≡ₚ map fst four_reports.
Proof.
  apply (Wait_returns_whole_blocks four_reports four_run g_one four_final_one
           w_two (cancel_calls 0%nat 2 w_two)).
  - by split_and?.
  - reflexivity.
  - vm_compute. reflexivity.
  - reflexivity.
Defined.

Lemma unbounded_Wait_unwraps_all_witness :
  exists res agg w'',
    Wait (grp four_final_plain) w0 = Ok ((res, agg), w'')
    /\ unwrapped agg ≡ₚ omap snd four_reports
    /\ (agg = None <-> omap snd four_reports = []).
Proof.
  apply (unbounded_Wait_unwraps_all four_reports four_run g_plain
           four_final_plain w0 w0).
  - by split_and?.
  - reflexivity.
  - reflexivity.
  - vm_compute. reflexivity.
  - reflexivity.
Defined.

Lemma bounded_Wait_unwraps_min_witness :
  exists res agg w'',
    Wait (grp four_final_one) (cancel_calls 0%nat 2 w_two)
    = Ok ((res, agg), w'')
    /\ unwrapped agg ⊆+ omap snd four_reports
    /\ len (unwrapped agg)
       = Z.min (threshold g_one) (len (omap snd four_reports))
    /\ (len (omap snd four_reports) <= threshold g_one ->
        unwrapped agg ≡ₚ omap snd four_reports)
    /\ (agg = None <-> omap snd four_reports = []).
Proof.
  apply (bounded_Wait_unwraps_min four_reports four_run g_one four_final_one
           w_two (cancel_calls 0%nat 2 w_two)).
  - by split_and?.
  - reflexivity.
  - reflexivity.
  - vm_compute. reflexivity.
  - reflexivity.
Defined.

(*X7X8*)
Lemma accumulators_follow_report_order_witness :
  results (grp four_final_one)
  = results (grp (start g_one)) ++ appended_in four_run (start g_one) w_two
  /\ errs (grp four_final_one)
     = errs (grp (start g_one))
       ++ kept (grp (start g_one)) (handled_in four_run (start g_one) w_two).
Proof.
  apply (accumulators_follow_report_order four_run (start g_one) four_final_one
           w_two (cancel_calls 0%nat 2 w_two)).
  vm_compute. reflexivity.
Defined.

Lemma nested_multiError_message_witness :
  multiError_Error {| me_errs := two_aggregates |}
  = multiError_Error {| me_errs := concat (map me_errs two_aggregates) |}.
Proof.
  apply (nested_multiError_message two_aggregates).
  repeat constructor; discriminate.
Defined.

End instances.
